(** * Scheduled-job state store of robusta

    A shallow embedding of
    [src/robusta/core/persistency/scheduled_jobs_states_dal.py]:
    the five functions of the module, the Kubernetes ConfigMap they keep
    the job states in, and the process-wide mutex.  Further down come the
    two loops of the command line ([src/robusta/cli/main.py]) and the bash
    enrichments ([playbooks/bash_enrichments.py]).  The Python code talks
    to the cluster through three requests (read, create, replace); here
    the cluster is an explicit value threaded through every call, together
    with the log of requests issued, so that the number and the kind of
    requests an operation performs can be stated and proved. *)

From Stdlib Require Import Ascii String.
From Stdlib Require QArith_base.
From stdpp Require Import gmap strings list fin_maps relations.

Open Scope string_scope.
Open Scope list_scope.

(** ** Python dictionaries with string keys and string values

    [ConfigMap.data] is a [Dict[str, str]].  A Python dict iterates in
    insertion order and holds a key at most once, so it is kept as an
    association list: assignment to a present key replaces the value in
    place, assignment to a new key appends. *)

Module Dict.

Definition t := list (string * string).

Definition empty : t := [].

(** [d.get(k)] *)
Fixpoint get (d : t) (k : string) : option string :=
  match d with
  | [] => None
  | (k', v) :: d' => if String.eqb k' k then Some v else get d' k
  end.

(** [d[k] = v] *)
Fixpoint setitem (d : t) (k v : string) : t :=
  match d with
  | [] => [(k, v)]
  | (k', v') :: d' =>
      if String.eqb k' k then (k, v) :: d' else (k', v') :: setitem d' k v
  end.

(** [del d[k]]; [None] stands for the [KeyError] of an absent key. *)
Fixpoint delitem (d : t) (k : string) : option t :=
  match d with
  | [] => None
  | (k', v') :: d' =>
      if String.eqb k' k then Some d'
      else match delitem d' k with
           | Some d'' => Some ((k', v') :: d'')
           | None => None
           end
  end.

(** [d.keys()] *)
Definition keys (d : t) : list string := map fst d.

(** The representation invariant of a dict: no key occurs twice. *)
Definition wf (d : t) : Prop := NoDup (keys d).

End Dict.

(** ** The objects of the cluster *)

(** [hikaru.model.ObjectMeta], restricted to the two fields the module
    sets and reads. *)
Record ObjectMeta := mkMeta { name : string; namespace : string }.

(** Modelled from the spec: the [ConfigMap] class comes from
    [integrations/kubernetes/autogenerated/v1/models], which is not part
    of the sources at hand.  Following the backing-store contract, a
    document exposes its name, its namespace and a string-to-string
    mapping field [data]; a document constructed from metadata alone has
    an empty mapping. *)
Record ConfigMap := mkConfigMap { metadata : ObjectMeta; data : Dict.t }.

Definition new_ConfigMap (m : ObjectMeta) : ConfigMap :=
  {| metadata := m; data := Dict.empty |}.

Definition CONFIGMAP_NAME : string := "jobs-states".
Definition CONFIGMAP_NAMESPACE : string := "robusta".

(** The metadata of the document and the place the cluster keeps it at. *)
Definition well_known : ObjectMeta := mkMeta CONFIGMAP_NAME CONFIGMAP_NAMESPACE.
Definition doc_key : string * string := (CONFIGMAP_NAMESPACE, CONFIGMAP_NAME).

(** ** Exceptions, outcomes and the world *)

Inductive exn :=
| ApiException (reason : string)   (* kubernetes.client.exceptions.ApiException *)
| TransportError (what : string)   (* any other failure of a request *)
| ValueError (raw : string)        (* the JobState constructor or json.loads raising *)
| KeyError (key : string).         (* del d[k] on an absent key *)

(** The requests of the backing store, as they are logged. *)
Inductive call :=
| Read (nm ns : string)
| Create (ns : string) (body : ConfigMap)
| Replace (nm ns : string) (body : ConfigMap).

Definition is_create (c : call) : bool :=
  match c with Create _ _ => true | _ => false end.
Definition is_replace (c : call) : bool :=
  match c with Replace _ _ _ => true | _ => false end.
Definition is_write (c : call) : bool := is_create c || is_replace c.

Definition count (p : call → bool) (l : list call) : nat :=
  length (filter (λ c, p c = true) l).

(** The world a call runs in.  [objects] are the ConfigMaps of the
    cluster under (namespace, name).  [faults] is a script of failures of
    the cluster or of the connection: each request consumes one entry, and
    [Some e] makes that request raise [e] without reaching the store.
    [calls] logs every request issued, oldest first.  [mutex] tells
    whether the module-level [Lock] is held. *)
Record World := mkWorld {
  objects : gmap (string * string) ConfigMap;
  faults : list (option exn);
  calls : list call;
  mutex : bool
}.

Definition set_objects (o : gmap (string * string) ConfigMap) (w : World) :=
  {| objects := o; faults := faults w; calls := calls w; mutex := mutex w |}.
Definition set_mutex (b : bool) (w : World) :=
  {| objects := objects w; faults := faults w; calls := calls w; mutex := b |}.

(** What a call does: it returns, it raises, or it waits forever for a
    lock that is held. *)
Inductive outcome (A : Type) :=
| Return (a : A)
| Raise (e : exn)
| Blocked.
Arguments Return {A} a.
Arguments Raise {A} e.
Arguments Blocked {A}.

Definition M (A : Type) : Type := World → outcome A * World.

Definition ret {A} (a : A) : M A := λ w, (Return a, w).
Definition raise {A} (e : exn) : M A := λ w, (Raise e, w).

Definition bind {A B} (m : M A) (k : A → M B) : M B :=
  λ w, match m w with
       | (Return a, w') => k a w'
       | (Raise e, w') => (Raise e, w')
       | (Blocked, w') => (Blocked, w')
       end.

Notation "'let*' x := m 'in' k" := (bind m (λ x, k))
  (at level 10, x binder, k at level 200).

(** [try: m  except ...: h]: the handler [h] tells which exceptions the
    [except] clause catches. *)
Definition try_except {A} (m : M A) (h : exn → option (M A)) : M A :=
  λ w, match m w with
       | (Raise e, w') =>
           match h e with
           | Some k => k w'
           | None => (Raise e, w')
           end
       | r => r
       end.

(** [try: m  finally: f] *)
Definition try_finally {A} (m : M A) (f : M unit) : M A :=
  λ w, match m w with
       | (Return a, w') => (let* _ := f in ret a) w'
       | (Raise e, w') => (let* _ := f in raise e) w'
       | (Blocked, w') => (Blocked, w')
       end.

Fixpoint mapM {A B} (f : A → M B) (l : list A) : M (list B) :=
  match l with
  | [] => ret []
  | x :: l' => let* y := f x in let* ys := mapM f l' in ret (y :: ys)
  end.

(** ** The lock *)

(** [mutex.acquire()]: a [threading.Lock] is not reentrant. *)
Definition acquire : M unit :=
  λ w, if mutex w then (Blocked, w) else (Return tt, set_mutex true w).

(** [mutex.release()] *)
Definition release : M unit :=
  λ w, (Return tt, set_mutex false w).

(** ** The backing store

    Modelled from the spec: the request methods of [ConfigMap]
    ([readNamespacedConfigMap], [createNamespacedConfigMap],
    [replaceNamespacedConfigMap]) are generated code that is not among
    the sources.  The contract: read returns the document or fails with
    not-found; create fails if the document already exists; replace
    overwrites the whole document. *)

(** The failure scheduled for the next request, if any. *)
Definition next_fault (w : World) : option exn :=
  match faults w with
  | Some e :: _ => Some e
  | _ => None
  end.

(** Issuing a request logs it and consumes one entry of the script. *)
Definition issue (c : call) (w : World) : World :=
  {| objects := objects w; faults := tail (faults w);
     calls := calls w ++ [c]; mutex := mutex w |}.

Definition request {A} (c : call) (serve : M A) : M A :=
  λ w, match next_fault w with
       | Some e => (Raise e, issue c w)
       | None => serve (issue c w)
       end.

Definition readNamespacedConfigMap (nm ns : string) : M ConfigMap :=
  request (Read nm ns)
    (λ w, match objects w !! (ns, nm) with
          | Some cm => (Return cm, w)
          | None => (Raise (ApiException "Not Found"), w)
          end).

Definition addressed (cm : ConfigMap) (nm ns : string) : bool :=
  String.eqb (name (metadata cm)) nm && String.eqb (namespace (metadata cm)) ns.

Definition createNamespacedConfigMap (cm : ConfigMap) (ns : string) : M unit :=
  request (Create ns cm)
    (λ w, if negb (addressed cm (name (metadata cm)) ns)
          then (Raise (ApiException "Bad Request"), w)
          else match objects w !! (ns, name (metadata cm)) with
               | Some _ => (Raise (ApiException "Conflict"), w)
               | None =>
                   (Return tt, set_objects (<[(ns, name (metadata cm)) := cm]> (objects w)) w)
               end).

Definition replaceNamespacedConfigMap (cm : ConfigMap) (nm ns : string) : M unit :=
  request (Replace nm ns cm)
    (λ w, if negb (addressed cm nm ns)
          then (Raise (ApiException "Bad Request"), w)
          else match objects w !! (ns, nm) with
               | Some _ => (Return tt, set_objects (<[(ns, nm) := cm]> (objects w)) w)
               | None => (Raise (ApiException "Not Found"), w)
               end).

(** ** Programs

    A function of the module is a sequence of statements, and another
    thread can run between two of them.  To say so, the function is
    written as a program, a tree of statements each of which acts on the
    world at once; the function as a caller sees it is the [run] of its
    program from the first statement to the last, and a thread running it
    next to other threads executes one statement per [pstep]. *)

Inductive prog : Type → Type :=
| Ret {A} (a : A) : prog A                              (* nothing left, a value *)
| Throw {A} (e : exn) : prog A                          (* nothing left, an exception in flight *)
| Stmt {A} (op : M A) : prog A                          (* one statement *)
| Seq {A B} (m : prog A) (k : A → prog B) : prog B      (* [m], then the rest *)
| Finally {A} (m : prog A) (f : prog unit) : prog A.    (* try: m  finally: f *)

Notation "'do*' x := m 'in' k" := (Seq m (λ x, k))
  (at level 10, x binder, k at level 200).

(** The program run on its own, from beginning to end. *)
Fixpoint run {A} (p : prog A) : M A :=
  match p with
  | Ret a => ret a
  | Throw e => raise e
  | Stmt op => op
  | Seq m k => let* a := run m in run (k a)
  | Finally m f => try_finally (run m) (run f)
  end.

(** How a program has ended. *)
Inductive ended (A : Type) :=
| Returned (a : A)
| Raised (e : exn).
Arguments Returned {A} a.
Arguments Raised {A} e.

Definition rest_of {A} (o : ended A) : prog A :=
  match o with
  | Returned a => Ret a
  | Raised e => Throw e
  end.

(** A program with no statement left to execute has ended. *)
Fixpoint final {A} (p : prog A) : option (ended A) :=
  match p with
  | Ret a => Some (Returned a)
  | Throw e => Some (Raised e)
  | Stmt _ => None
  | Seq m k =>
      match final m with
      | Some (Returned a) => final (k a)
      | Some (Raised e) => Some (Raised e)
      | None => None
      end
  | Finally m f =>
      match final m, final f with
      | Some o, Some (Returned _) => Some o
      | Some _, Some (Raised e) => Some (Raised e)
      | _, _ => None
      end
  end.

(** One step of a thread: the next statement of the program is executed
    and the rest of the program is left.  A statement that would wait for
    the lock is not executed: the thread cannot move. *)
Fixpoint pstep {A} (p : prog A) (w : World) : option (prog A * World) :=
  match p with
  | Ret _ | Throw _ => None
  | Stmt op =>
      match op w with
      | (Return a, w') => Some (Ret a, w')
      | (Raise e, w') => Some (Throw e, w')
      | (Blocked, _) => None
      end
  | Seq m k =>
      match final m with
      | Some (Returned a) => pstep (k a) w
      | Some (Raised _) => None
      | None =>
          match pstep m w with
          | Some (m', w') => Some (Seq m' k, w')
          | None => None
          end
      end
  | Finally m f =>
      match final m with
      | Some o =>
          match pstep f w with
          | Some (f', w') => Some (Seq f' (λ _, rest_of o), w')
          | None => None
          end
      | None =>
          match pstep m w with
          | Some (m', w') => Some (Finally m' f, w')
          | None => None
          end
      end
  end.

(** Threads of one process, each with the program it has left; a step of
    the process is a step of one of them. *)
Inductive pool_step :
  World * list (prog unit) → World * list (prog unit) → Prop :=
| pool_step_thread (w w' : World) (ps : list (prog unit)) (i : nat)
    (p p' : prog unit) :
    ps !! i = Some p →
    pstep p w = Some (p', w') →
    pool_step (w, ps) (w', <[i := p']> ps).

Definition pool_done (ps : list (prog unit)) : Prop :=
  Forall (λ p, is_Some (final p)) ps.

(** A thread that runs with no other thread in between. *)
Definition solo {A} (x y : prog A * World) : Prop :=
  pstep x.1 x.2 = Some y.

(** A program that has ended as [run] says. *)
Definition ends_as {A} (o : outcome A) (p : prog A) : Prop :=
  match o with
  | Return a => final p = Some (Returned a)
  | Raise e => final p = Some (Raised e)
  | Blocked => False
  end.

(** ** The module *)

Definition load_config_map : M ConfigMap :=
  readNamespacedConfigMap CONFIGMAP_NAME CONFIGMAP_NAMESPACE.

(** [init_scheduler_dal]; the [logging.info] after the create changes
    nothing of the world and is left out. *)
Definition init_scheduler_dal : M unit :=
  try_except (let* _ := load_config_map in ret tt)
    (λ e, match e with
          | ApiException reason =>
              Some (if negb (String.eqb reason "Not Found") then raise e
                    else
                      let* _ := acquire in
                      try_finally
                        (let conf_map :=
                           new_ConfigMap (mkMeta CONFIGMAP_NAME CONFIGMAP_NAMESPACE) in
                         createNamespacedConfigMap conf_map (namespace (metadata conf_map)))
                        release)
          | _ => None
          end).

(** The [JobState] model of [core/schedule/model] is not among the
    sources; the module uses three things of it. *)
Class JobStateModel (JobState : Type) := {
  (** [job_state.params.playbook_id] *)
  playbook_id : JobState → string;
  (** [job_state.json()] *)
  json : JobState → string;
  (** the constructor applied to [json.loads(s)]; [None] when it raises *)
  loads : string → option JobState
}.

Section DAL.
Context {JobState : Type} `{JobStateModel JobState}.

(** The statements of [save_scheduled_job_state]. *)
Definition save_program (job_state : JobState) : prog unit :=
  do* _ := Stmt acquire in
  Finally
    (do* confMap := Stmt load_config_map in
     do* confMap :=
       Stmt (ret {| metadata := metadata confMap;
                    data := Dict.setitem (data confMap)
                              (playbook_id job_state) (json job_state) |}) in
     Stmt (replaceNamespacedConfigMap confMap
             (name (metadata confMap)) (namespace (metadata confMap))))
    (Stmt release).

Definition save_scheduled_job_state (job_state : JobState) : M unit :=
  run (save_program job_state).

(** The document [save] writes back, from the one it has read. *)
Definition saved (cm : ConfigMap) (v : JobState) : ConfigMap :=
  {| metadata := metadata cm;
     data := Dict.setitem (data cm) (playbook_id v) (json v) |}.

(** The document after [delete] of a key. *)
Definition deleted (cm : ConfigMap) (k : string) : ConfigMap :=
  match Dict.delitem (data cm) k with
  | Some d => {| metadata := metadata cm; data := d |}
  | None => cm
  end.

(** What [get] makes of the entry of a key. *)
Definition decoded (entry : option string) : outcome (option JobState) :=
  match entry with
  | Some state_data =>
      match loads state_data with
      | Some js => Return (Some js)
      | None => Raise (ValueError state_data)
      end
  | None => Return None
  end.

Definition get_scheduled_job_state (pid : string) : M (option JobState) :=
  let* confMap := load_config_map in
  match Dict.get (data confMap) pid with
  | Some state_data =>
      match loads state_data with
      | Some js => ret (Some js)
      | None => raise (ValueError state_data)
      end
  | None => ret None
  end.

Definition del_scheduled_job_state (pid : string) : M unit :=
  let* _ := acquire in
  try_finally
    (let* confMap := load_config_map in
     match Dict.get (data confMap) pid with
     | Some _ =>
         match Dict.delitem (data confMap) pid with
         | Some d =>
             let confMap := {| metadata := metadata confMap; data := d |} in
             replaceNamespacedConfigMap confMap
               (name (metadata confMap)) (namespace (metadata confMap))
         | None => raise (KeyError pid)
         end
     | None => ret tt
     end)
    release.

Definition list_scheduled_jobs_states : M (list (option JobState)) :=
  let* confMap := load_config_map in
  mapM get_scheduled_job_state (Dict.keys (data confMap)).

(** A caller saving several job states, one after the other. *)
Fixpoint save_all (jobs : list JobState) : M unit :=
  match jobs with
  | [] => ret tt
  | v :: jobs' => let* _ := save_scheduled_job_state v in save_all jobs'
  end.

(** The entries a caller has written for [jobs]. *)
Definition entries (jobs : list JobState) : Dict.t :=
  map (λ v, (playbook_id v, json v)) jobs.

(** Every value of the mapping decodes. *)
Definition decodable (d : Dict.t) : Prop :=
  ∀ k s, (k, s) ∈ d → is_Some (loads s).

(** A document in good shape: it bears the well-known name, its mapping
    holds no key twice, and every value decodes. *)
Record sound (cm : ConfigMap) : Prop := {
  sound_meta : metadata cm = well_known;
  sound_wf : Dict.wf (data cm);
  sound_values : decodable (data cm)
}.

End DAL.

(** The one read request the module issues. *)
Definition fetch : call := Read CONFIGMAP_NAME CONFIGMAP_NAMESPACE.

(** The world after [n] more reads that were served. *)
Definition fetched (n : nat) (w : World) : World :=
  {| objects := objects w; faults := faults w;
     calls := calls w ++ repeat fetch n; mutex := mutex w |}.

(** [n] calls of [m] in a row. *)
Fixpoint repeatM (n : nat) (m : M unit) : M unit :=
  match n with
  | O => ret tt
  | S n' => let* _ := m in repeatM n' m
  end.

(** The document of the module, as the cluster holds it. *)
Definition document (w : World) : option ConfigMap := objects w !! doc_key.

(** The usual situation of a call: the document [cm] exists under its own
    name, no failure is scheduled, and the lock is free. *)
Record ready (w : World) (cm : ConfigMap) : Prop := {
  ready_doc : document w = Some cm;
  ready_meta : metadata cm = well_known;
  ready_calm : faults w = [];
  ready_free : mutex w = false
}.

(** ** Threads saving concurrently

    Several threads of one process call [save_scheduled_job_state], each
    with its own job state: the process is a pool of threads that each
    start with [save_program] of their job state.  To reason about what
    such a thread has left to run, the places it can be at are named:
    [program_at] gives the program left at each place, and [thread_step]
    tells how a thread moves from place to place; that this is how
    [pstep] moves the programs is proved below. *)

Inductive pc :=
| AtAcquire                          (* before mutex.acquire() *)
| AtLoad                             (* before confMap = load_config_map() *)
| AtAssign (confMap : ConfigMap)     (* before confMap.data[...] = ... *)
| AtReplace (confMap : ConfigMap)    (* before confMap.replaceNamespacedConfigMap(...) *)
| AtRelease (pending : option exn)   (* in the finally clause *)
| Finished (raised : option exn).

Section Threads.
Context {JobState : Type} `{JobStateModel JobState}.

Definition thread_step (job_state : JobState) (p : pc) (w : World)
  : option (pc * World) :=
  match p with
  | AtAcquire =>
      match acquire w with
      | (Return _, w') => Some (AtLoad, w')
      | _ => None
      end
  | AtLoad =>
      match load_config_map w with
      | (Return confMap, w') => Some (AtAssign confMap, w')
      | (Raise e, w') => Some (AtRelease (Some e), w')
      | (Blocked, _) => None
      end
  | AtAssign confMap =>
      Some (AtReplace
              {| metadata := metadata confMap;
                 data := Dict.setitem (data confMap)
                           (playbook_id job_state) (json job_state) |}, w)
  | AtReplace confMap =>
      match replaceNamespacedConfigMap confMap
              (name (metadata confMap)) (namespace (metadata confMap)) w with
      | (Return _, w') => Some (AtRelease None, w')
      | (Raise e, w') => Some (AtRelease (Some e), w')
      | (Blocked, _) => None
      end
  | AtRelease pending =>
      match release w with
      | (Return _, w') => Some (Finished pending, w')
      | _ => None
      end
  | Finished _ => None
  end.

(** A thread running on its own, for at most [n] statements. *)
Fixpoint run_alone (n : nat) (job_state : JobState) (p : pc) (w : World)
  : pc * World :=
  match n with
  | O => (p, w)
  | S n' =>
      match thread_step job_state p w with
      | Some (p', w') => run_alone n' job_state p' w'
      | None => (p, w)
      end
  end.

(** The threads of the process: each with its job state and the statement
    it is at. *)
Definition spawn (jobs : list JobState) : list (JobState * pc) :=
  map (λ job_state, (job_state, AtAcquire)) jobs.

Inductive step :
  World * list (JobState * pc) → World * list (JobState * pc) → Prop :=
| step_thread (w w' : World) (ts : list (JobState * pc)) (i : nat)
    (v : JobState) (p p' : pc) :
    ts !! i = Some (v, p) →
    thread_step v p w = Some (p', w') →
    step (w, ts) (w', <[i := (v, p')]> ts).

Definition finished (p : pc) : bool :=
  match p with Finished _ => true | _ => false end.

Definition all_finished (ts : list (JobState * pc)) : Prop :=
  Forall (λ t, finished t.2 = true) ts.

(** A thread between its [acquire] and its [release]. *)
Definition critical (p : pc) : bool :=
  match p with
  | AtLoad | AtAssign _ | AtReplace _ | AtRelease _ => true
  | AtAcquire | Finished _ => false
  end.

(** What a thread knows of the document [doc] of the cluster: the copy it
    works on is the document itself, or the document with its own entry
    set; once it has replaced the document, its entry is there. *)
Definition thread_ok (doc : ConfigMap) (t : JobState * pc) : Prop :=
  match t.2 with
  | AtAcquire | AtLoad => True
  | AtAssign confMap => confMap = doc
  | AtReplace confMap => confMap = saved doc t.1
  | AtRelease r | Finished r =>
      r = None ∧ Dict.get (data doc) (playbook_id t.1) = Some (json t.1)
  end.

(** The invariant of the system of threads saving [jobs]. *)
Record inv (jobs : list JobState) (w : World) (ts : list (JobState * pc)) : Prop := {
  inv_jobs : map fst ts = jobs;
  inv_calm : faults w = [];
  inv_doc : ∃ doc, document w = Some doc ∧ metadata doc = well_known
                   ∧ ∀ i t, ts !! i = Some t → thread_ok doc t;
  inv_excl : ∀ i j ti tj, ts !! i = Some ti → ts !! j = Some tj →
               critical ti.2 = true → critical tj.2 = true → i = j;
  inv_lock : mutex w = true ↔ ∃ i t, ts !! i = Some t ∧ critical t.2 = true
}.

(** The result of a thread, as the end of its program. *)
Definition end_of (raised : option exn) : ended unit :=
  match raised with
  | None => Returned tt
  | Some e => Raised e
  end.

(** The program a thread has left at each place: what [pstep] makes of
    [save_program] statement after statement. *)
Definition program_at (job_state : JobState) (p : pc) : prog unit :=
  let replace := λ confMap : ConfigMap,
    Stmt (replaceNamespacedConfigMap confMap
            (name (metadata confMap)) (namespace (metadata confMap))) in
  let assign := λ confMap : ConfigMap,
    do* confMap :=
      Stmt (ret {| metadata := metadata confMap;
                   data := Dict.setitem (data confMap)
                             (playbook_id job_state) (json job_state) |}) in
    replace confMap in
  match p with
  | AtAcquire => save_program job_state
  | AtLoad =>
      do* _ := Ret tt in
      Finally (do* confMap := Stmt load_config_map in assign confMap) (Stmt release)
  | AtAssign confMap =>
      Finally (do* confMap := Ret confMap in assign confMap) (Stmt release)
  | AtReplace confMap =>
      Finally (do* confMap := Ret confMap in replace confMap) (Stmt release)
  | AtRelease pending => Finally (rest_of (end_of pending)) (Stmt release)
  | Finished raised => do* _ := Ret tt in rest_of (end_of raised)
  end.

Definition programs (ts : list (JobState * pc)) : list (prog unit) :=
  map (λ t, program_at t.1 t.2) ts.

(** A thread that has written its entry. *)
Definition written (p : pc) : bool :=
  match p with
  | AtRelease _ | Finished _ => true
  | _ => false
  end.

Definition writers (ts : list (JobState * pc)) : list JobState :=
  map fst (filter (λ t, written t.2 = true) ts).

(** The objects of the cluster are what saving the job states of the
    threads that have written, one after the other in some order, makes of
    the document [doc0] in the objects [objects0]. *)
Definition serial (objects0 : gmap (string * string) ConfigMap) (doc0 : ConfigMap)
    (w : World) (ts : list (JobState * pc)) : Prop :=
  ∃ order, order ≡ₚ writers ts
           ∧ objects w = <[doc_key := fold_left saved order doc0]> objects0.

(** The statements a thread has still to execute. *)
Definition remaining (p : pc) : nat :=
  match p with
  | AtAcquire => 5
  | AtLoad => 4
  | AtAssign _ => 3
  | AtReplace _ => 2
  | AtRelease _ => 1
  | Finished _ => 0
  end.

Definition work (ts : list (JobState * pc)) : nat := sum_list (map (λ t, remaining t.2) ts).

End Threads.

(** ** A concrete job state

    The proofs below hold for any [JobStateModel].  To run the module on
    explicit inputs, here is a small one: a playbook id and an execution
    count, written as the id, a ['#'] and one ['+'] per execution.  An id
    that itself holds a ['#'] does not survive the encoding, and a string
    without ['#'] is not the encoding of any state. *)

Module Sample.

Record state := mk { id : string; exec_count : nat }.

Fixpoint marks (n : nat) : string :=
  match n with
  | O => EmptyString
  | S n' => String "+"%char (marks n')
  end.

Fixpoint split_hash (s : string) : option (string * string) :=
  match s with
  | EmptyString => None
  | String c r =>
      if Ascii.eqb c "#"%char then Some (EmptyString, r)
      else match split_hash r with
           | Some (a, b) => Some (String c a, b)
           | None => None
           end
  end.

Definition to_json (s : state) : string :=
  String.append (id s) (String "#"%char (marks (exec_count s))).

Definition of_json (s : string) : option state :=
  match split_hash s with
  | Some (a, b) => Some {| id := a; exec_count := String.length b |}
  | None => None
  end.

#[global] Instance model : JobStateModel state :=
  {| playbook_id := id; json := to_json; loads := of_json |}.

(** A cluster holding the document with the given mapping, no failure
    scheduled, nothing logged, the lock free. *)
Definition world_with (d : Dict.t) : World :=
  {| objects := {[ doc_key := {| metadata := well_known; data := d |} ]};
     faults := []; calls := []; mutex := false |}.

(** A cluster without the document. *)
Definition bare_world : World :=
  {| objects := ∅; faults := []; calls := []; mutex := false |}.

End Sample.


(** ** The command line: [src/robusta/cli/main.py]

    The commands of the CLI run [kubectl] through [subprocess] and talk to
    the user through [typer].  Of these, two functions hold a loop of
    their own: [exec_in_robusta_runner], which retries a command in the
    runner, and [wait_for_slack_api_key], which polls for a token.  The
    outside world is a script of what the next calls will answer and a
    log of what was done. *)

Module Cli.

(** What [subprocess.check_call], [requests] and [time.sleep] raise. *)
Inductive exn :=
| CalledProcessError (returncode : Z)   (* the command exits with a non-zero code *)
| OSError (what : string)               (* the command cannot be started *)
| ValueError (what : string)            (* time.sleep of a negative length *)
| KeyboardInterrupt.

(** [except Exception] catches every class but [KeyboardInterrupt], which
    derives from [BaseException] only. *)
Definition is_Exception (e : exn) : bool :=
  match e with
  | KeyboardInterrupt => false
  | _ => true
  end.

Inductive event :=
| Run (argv : list string)                        (* subprocess.check_call(argv) *)
| Echo (message : string)                         (* typer.echo(message) *)
| Secho (message : string) (fg : option string)   (* typer.secho(message, fg=fg) *)
| Sleep (seconds : QArith_base.Q)                             (* time.sleep(seconds) *)
| Get (url : string).                             (* requests.get(url) *)

(** [outcomes] scripts the next [check_call]s: [None] for exit code 0,
    [Some e] for [e] raised; past the end of the script every command
    succeeds. *)
Record Shell := mkShell {
  outcomes : list (option exn);
  events : list event
}.

Definition log (e : event) (sh : Shell) : Shell :=
  {| outcomes := outcomes sh; events := events sh ++ [e] |}.

(** [subprocess.check_call(argv)]: the return code 0, or an exception. *)
Definition check_call (argv : list string) (sh : Shell) : (Z + exn) * Shell :=
  let sh' := {| outcomes := tail (outcomes sh); events := events sh ++ [Run argv] |} in
  match outcomes sh with
  | Some e :: _ => (inr e, sh')
  | _ => (inl 0%Z, sh')
  end.

(** [time.sleep(seconds)] *)
Definition sleep (seconds : Z) (sh : Shell) : (unit + exn) * Shell :=
  if (seconds <? 0)%Z
  then (inr (ValueError "sleep length must be non-negative"), sh)
  else (inl tt, log (Sleep (QArith_base.inject_Z seconds)) sh).

(** The command line [exec_in_robusta_runner] builds around [cmd]. *)
Definition runner_argv (cmd : string) : list string :=
  ["kubectl"; "exec"; "-n"; "robusta"; "-it"; "deploy/robusta-runner"; "--";
   "bash"; "-c"; cmd].

(** The loop [for _ in range(tries - 1)] with [n] rounds to go, and the
    call after it. *)
Fixpoint attempts (n : nat) (argv : list string)
    (time_between_attempts : Z) (error_msg : string) (sh : Shell)
  : (Z + exn) * Shell :=
  match n with
  | O => check_call argv sh
  | S n' =>
      match check_call argv sh with
      | (inl rc, sh1) => (inl rc, sh1)
      | (inr e, sh1) =>
          if is_Exception e then
            match sleep time_between_attempts (log (Echo error_msg) sh1) with
            | (inl _, sh2) => attempts n' argv time_between_attempts error_msg sh2
            | (inr e', sh2) => (inr e', sh2)
            end
          else (inr e, sh1)
      end
  end.

Definition exec_in_robusta_runner (cmd : string) (tries : Z)
    (time_between_attempts : Z) (error_msg : string) : Shell → (Z + exn) * Shell :=
  attempts (Z.to_nat (tries - 1)) (runner_argv cmd) time_between_attempts error_msg.

(** What one failed round of the loop adds to the log. *)
Definition failed_round (argv : list string) (time_between_attempts : Z)
    (error_msg : string) : list event :=
  [Run argv; Echo error_msg; Sleep (QArith_base.inject_Z time_between_attempts)].

Definition is_run (e : event) : bool :=
  match e with Run _ => true | _ => false end.

(** The number of commands run, in a piece of the log. *)
Definition runs (l : list event) : nat :=
  length (filter (λ e, is_run e = true) l).


Fixpoint times (n : nat) (s : string) : string :=
  match n with
  | O => EmptyString
  | S n' => String.append s (times n' s)
  end.

(** [log_title(title, color)] *)
Definition log_title (title : string) (color : option string) : list event :=
  [Echo (times 70 "="); Secho title color; Echo (times 70 "=")].

Section Slack.
(** The JSON value under ["token"], with Python's truth value and [str]. *)
Context {token : Type} (truthy : token → bool) (str : token → string).
(** [SLACK_INTEGRATION_SERVICE_ADDRESS], read from the environment. *)
Context (address : string).

(** What one round of the polling loop meets: the request answers and the
    response holds a token; or [requests.get], [.json()] or the lookup of
    ["token"] raises an [Exception] that prints as [e]; or the user
    interrupts. *)
Inductive reply :=
| Token (t : token)
| Broken (e : string)
| Interrupted.

Definition token_url (id : string) : string :=
  String.append address (String.append "?id=" id).

(** What one round that does not leave the loop adds to the log. *)
Definition polling_round (id : string) (r : reply) : list event :=
  match r with
  | Token _ => [Get (token_url id); Sleep (QArith_base.Qmake 1 2)]
  | Broken e =>
      Get (token_url id)
      :: log_title (String.append "Error getting slack token " e) None
  | Interrupted => [Get (token_url id)]
  end.

(** [wait_for_slack_api_key]: the [while True] loop runs as long as the
    script of replies lasts; [None] is the loop still going when the
    script ends. *)
Fixpoint wait_for_slack_api_key (id : string) (replies : list reply)
    (logged : list event) : option (string + exn) * list event :=
  match replies with
  | [] => (None, logged)
  | Token t :: rest =>
      if truthy t then (Some (inl (str t)), logged ++ [Get (token_url id)])
      else wait_for_slack_api_key id rest (logged ++ polling_round id (Token t))
  | Broken e :: rest =>
      wait_for_slack_api_key id rest (logged ++ polling_round id (Broken e))
  | Interrupted :: rest =>
      (Some (inr KeyboardInterrupt), logged ++ [Get (token_url id)])
  end.

(** A round that keeps the loop going. *)
Definition keeps_polling (r : reply) : bool :=
  match r with
  | Token t => negb (truthy t)
  | Broken _ => true
  | Interrupted => false
  end.

End Slack.

End Cli.

(** ** The bash enrichments: [playbooks/bash_enrichments.py] *)

Module Enrichment.

(** [MarkdownBlock(text)], the one kind of block the playbook builds. *)
Inductive block := MarkdownBlock (text : string).

(** [ManualTriggerEvent], with the fields the playbook reads and sets. *)
Record TriggerEvent (Data : Type) := mkEvent {
  data : Data;
  report_blocks : list block;
  slack_channel : string;
  report_title : string
}.
Arguments mkEvent {Data}.
Arguments data {Data}.
Arguments report_blocks {Data}.
Arguments slack_channel {Data}.
Arguments report_title {Data}.

Section Playbook.
(** The cluster and the libraries, as far as the playbook uses them; [E]
    are the exceptions they raise. *)
Context {Pod Node Data E : Type}.
(** [RobustaPod.read(name, namespace)]: a pod, or a falsy value *)
Context (read_pod : string → string → option Pod + E).
(** [pod.exec(command)] *)
Context (exec : Pod → string → string + E).
(** [Node().read(name)] *)
Context (read_node : string → option Node + E).
(** [RobustaPod.exec_in_debugger_pod(pod_name, node_name, command)] *)
Context (exec_in_debugger_pod : string → string → string → string + E).

Definition pod_bash_enrichment (pod_name pod_namespace bash_command : string)
  : list block + E :=
  match read_pod pod_name pod_namespace with
  | inr e => inr e
  | inl None =>
      inl [MarkdownBlock
             (String.append "Pod "
                (String.append pod_namespace
                   (String.append "/" (String.append pod_name " not found"))))]
  | inl (Some pod) =>
      match exec pod bash_command with
      | inr e => inr e
      | inl exec_result =>
          inl [MarkdownBlock
                 (String.append "Command results for *"
                    (String.append bash_command ":*"));
               MarkdownBlock exec_result]
      end
  end.

Definition node_bash_enrichment (node_name bash_command : string)
  : list block + E :=
  match read_node node_name with
  | inr e => inr e
  | inl None =>
      inl [MarkdownBlock
             (String.append "Node " (String.append node_name " not found"))]
  | inl (Some node) =>
      match exec_in_debugger_pod "node-bash-pod" node_name bash_command with
      | inr e => inr e
      | inl exec_result =>
          inl [MarkdownBlock
                 (String.append "Command results for *"
                    (String.append bash_command ":*"));
               MarkdownBlock exec_result]
      end
  end.

(** [PodBashParams] and [NodeBashParams], once validated. *)
Record PodBashParams := mkPodParams {
  pod_name : string; pod_namespace : string;
  pod_slack_channel : string; pod_bash_command : string
}.
Record NodeBashParams := mkNodeParams {
  node_name : string; node_slack_channel : string; node_bash_command : string
}.

(** The constructors applied to [event.data]; they raise on invalid data. *)
Context (parse_pod_params : Data → PodBashParams + E).
Context (parse_node_params : Data → NodeBashParams + E).

(** The playbooks return the event as they leave it and the events they
    have passed to [send_to_slack]. *)
Definition show_pod_bash_enrichment (event : TriggerEvent Data)
  : TriggerEvent Data * list (TriggerEvent Data) + E :=
  match parse_pod_params (data event) with
  | inr e => inr e
  | inl params =>
      match pod_bash_enrichment (pod_name params) (pod_namespace params)
              (pod_bash_command params) with
      | inr e => inr e
      | inl blocks =>
          match blocks with
          | [] => inl (event, [])
          | _ :: _ =>
              let event' :=
                {| data := data event;
                   report_blocks := report_blocks event ++ blocks;
                   slack_channel := pod_slack_channel params;
                   report_title :=
                     String.append "Pod bash command - " (pod_name params) |} in
              inl (event', [event'])
          end
      end
  end.

Definition show_node_bash_enrichment (event : TriggerEvent Data)
  : TriggerEvent Data * list (TriggerEvent Data) + E :=
  match parse_node_params (data event) with
  | inr e => inr e
  | inl params =>
      match node_bash_enrichment (node_name params) (node_bash_command params) with
      | inr e => inr e
      | inl blocks =>
          match blocks with
          | [] => inl (event, [])
          | _ :: _ =>
              let event' :=
                {| data := data event;
                   report_blocks := report_blocks event ++ blocks;
                   slack_channel := node_slack_channel params;
                   report_title :=
                     String.append "Node bash command - " (node_name params) |} in
              inl (event', [event'])
          end
      end
  end.

End Playbook.

End Enrichment.

(** * Properties *)

(** ** Dictionaries *)

Section DictFacts.
Implicit Types (d : Dict.t) (k v : string).

Lemma get_setitem d k v k' :
  Dict.get (Dict.setitem d k v) k' = if decide (k = k') then Some v else Dict.get d k'.
Proof.
  induction d as [|[k0 v0] d IH]; simpl.
  - destruct (String.eqb_spec k k'); case_decide; congruence.
  - destruct (String.eqb_spec k0 k) as [->|Hne]; simpl.
    + destruct (String.eqb_spec k k'); case_decide; congruence.
    + destruct (String.eqb_spec k0 k'); [|exact IH].
      case_decide; congruence.
Qed.

Lemma get_setitem_eq d k v : Dict.get (Dict.setitem d k v) k = Some v.
Proof. rewrite get_setitem. by case_decide. Qed.

Lemma get_setitem_ne d k v k' :
  k ≠ k' → Dict.get (Dict.setitem d k v) k' = Dict.get d k'.
Proof. intros. rewrite get_setitem. by case_decide. Qed.

Lemma get_None_keys d k : Dict.get d k = None ↔ k ∉ Dict.keys d.
Proof.
  induction d as [|[k0 v0] d IH]; simpl.
  - split; [intros _; apply not_elem_of_nil | done].
  - rewrite not_elem_of_cons.
    destruct (String.eqb_spec k0 k) as [->|Hne].
    + split; [done | intros [? _]; done].
    + rewrite IH. split; [intros; split; congruence | intros [_ ?]; done].
Qed.

Lemma get_Some_elem d k v : Dict.get d k = Some v → (k, v) ∈ d.
Proof.
  induction d as [|[k0 v0] d IH]; simpl; [done|].
  destruct (String.eqb_spec k0 k) as [->|Hne].
  - intros [= ->]. left.
  - intros. right. auto.
Qed.

Lemma elem_get_Some d k v : Dict.wf d → (k, v) ∈ d → Dict.get d k = Some v.
Proof.
  unfold Dict.wf. induction d as [|[k0 v0] d IH]; simpl.
  - intros _ Hin. by apply elem_of_nil in Hin.
  - rewrite NoDup_cons. intros [Hk0 Hnd] Hin.
    apply elem_of_cons in Hin as [[= -> ->]|Hin].
    + by rewrite String.eqb_refl.
    + destruct (String.eqb_spec k0 k) as [->|Hne]; [|by apply IH].
      exfalso. apply Hk0. apply (list_elem_of_fmap_2 fst) in Hin. exact Hin.
Qed.

Lemma delitem_None d k : Dict.get d k = None → Dict.delitem d k = None.
Proof.
  induction d as [|[k0 v0] d IH]; simpl; [done|].
  destruct (String.eqb_spec k0 k); [done|]. by intros ->%IH.
Qed.

Lemma delitem_is_Some d k : is_Some (Dict.get d k) → is_Some (Dict.delitem d k).
Proof.
  induction d as [|[k0 v0] d IH]; simpl.
  - by intros [? ?].
  - destruct (String.eqb_spec k0 k); [eauto|].
    intros Hs. destruct (IH Hs) as [d' ->]. eauto.
Qed.

Lemma get_delitem_ne d d' k k' :
  Dict.delitem d k = Some d' → k ≠ k' → Dict.get d' k' = Dict.get d k'.
Proof.
  revert d'. induction d as [|[k0 v0] d IH]; simpl; intros d' Hdel Hne; [done|].
  destruct (String.eqb_spec k0 k) as [->|Hk].
  - injection Hdel as <-. destruct (String.eqb_spec k k'); congruence.
  - destruct (Dict.delitem d k) as [d''|]; [|done].
    injection Hdel as <-. simpl.
    destruct (String.eqb_spec k0 k'); [done|]. by apply IH.
Qed.

Lemma get_delitem_eq d d' k :
  Dict.wf d → Dict.delitem d k = Some d' → Dict.get d' k = None.
Proof.
  unfold Dict.wf. revert d'.
  induction d as [|[k0 v0] d IH]; simpl; intros d' Hnd Hdel; [done|].
  apply NoDup_cons in Hnd as [Hk0 Hnd].
  destruct (String.eqb_spec k0 k) as [->|Hk].
  - injection Hdel as <-. by apply get_None_keys.
  - destruct (Dict.delitem d k) as [d''|] eqn:E; [|done].
    injection Hdel as <-. simpl.
    destruct (String.eqb_spec k0 k); [done|]. by apply IH.
Qed.

Lemma keys_setitem d k v :
  Dict.keys (Dict.setitem d k v) =
  if decide (k ∈ Dict.keys d) then Dict.keys d else Dict.keys d ++ [k].
Proof.
  induction d as [|[k0 v0] d IH]; simpl.
  - destruct (decide (k ∈ [])) as [Hin|]; [by apply elem_of_nil in Hin | done].
  - destruct (String.eqb_spec k0 k) as [->|Hk]; simpl.
    + destruct (decide (k ∈ k :: Dict.keys d)) as [|Hn]; [done|].
      exfalso. apply Hn. left.
    + rewrite IH.
      destruct (decide (k ∈ Dict.keys d)) as [Hin|Hin];
        destruct (decide (k ∈ k0 :: Dict.keys d)) as [Hin'|Hin']; try done.
      * exfalso. apply Hin'. by right.
      * apply elem_of_cons in Hin' as [?|?]; congruence.
Qed.

Lemma wf_setitem d k v : Dict.wf d → Dict.wf (Dict.setitem d k v).
Proof.
  unfold Dict.wf. rewrite keys_setitem. case_decide as Hin; [done|].
  intros Hnd. apply NoDup_app. split_and!; [done| |apply NoDup_singleton].
  intros x Hx ->%list_elem_of_singleton. done.
Qed.

Lemma wf_delitem d d' k : Dict.wf d → Dict.delitem d k = Some d' → Dict.wf d'.
Proof.
  unfold Dict.wf. revert d'.
  induction d as [|[k0 v0] d IH]; simpl; intros d' Hnd Hdel; [done|].
  apply NoDup_cons in Hnd as [Hk0 Hnd].
  destruct (String.eqb_spec k0 k) as [->|Hk].
  - by injection Hdel as <-.
  - destruct (Dict.delitem d k) as [d''|] eqn:E; [|done].
    injection Hdel as <-. simpl. apply NoDup_cons. split; [|by apply IH].
    apply get_None_keys. rewrite (get_delitem_ne _ _ _ _ E); [|congruence].
    by apply get_None_keys.
Qed.

End DictFacts.

(** ** Requests *)

Section Requests.
Implicit Types (w : World) (cm : ConfigMap).

Lemma next_fault_calm w : faults w = [] → next_fault w = None.
Proof. unfold next_fault. by intros ->. Qed.

Lemma issue_calm c w : faults w = [] → faults (issue c w) = [].
Proof. simpl. by intros ->. Qed.

Lemma load_served w cm :
  next_fault w = None → document w = Some cm →
  load_config_map w = (Return cm, issue fetch w).
Proof.
  intros Hf Hd. unfold load_config_map, readNamespacedConfigMap, request.
  rewrite Hf. change (objects (issue _ w) !! _) with (document w). by rewrite Hd.
Qed.

Lemma load_missing w :
  next_fault w = None → document w = None →
  load_config_map w = (Raise (ApiException "Not Found"), issue fetch w).
Proof.
  intros Hf Hd. unfold load_config_map, readNamespacedConfigMap, request.
  rewrite Hf. change (objects (issue _ w) !! _) with (document w). by rewrite Hd.
Qed.

Lemma load_fault w e :
  next_fault w = Some e → load_config_map w = (Raise e, issue fetch w).
Proof.
  intros Hf. unfold load_config_map, readNamespacedConfigMap, request.
  by rewrite Hf.
Qed.

(** A read changes nothing but the log and the script. *)
Lemma load_world w : (load_config_map w).2 = issue fetch w.
Proof.
  unfold load_config_map, readNamespacedConfigMap, request.
  destruct (next_fault w); [done|].
  by destruct (objects (issue _ w) !! _).
Qed.

(** What a read returns is the document. *)
Lemma load_Return w cm w' :
  load_config_map w = (Return cm, w') → document w = Some cm ∧ w' = issue fetch w.
Proof.
  unfold load_config_map, readNamespacedConfigMap, request.
  destruct (next_fault w); [done|].
  change (objects (issue _ w) !! _) with (document w).
  destruct (document w); [|done]. by intros [= -> <-].
Qed.

Lemma addressed_well_known cm :
  metadata cm = well_known →
  addressed cm (name (metadata cm)) (namespace (metadata cm)) = true
  ∧ (namespace (metadata cm), name (metadata cm)) = doc_key.
Proof. unfold addressed. intros ->. done. Qed.

Lemma replace_served w cm old :
  next_fault w = None → metadata cm = well_known → document w = Some old →
  replaceNamespacedConfigMap cm (name (metadata cm)) (namespace (metadata cm)) w =
  (Return tt,
   set_objects (<[doc_key := cm]> (objects w))
     (issue (Replace CONFIGMAP_NAME CONFIGMAP_NAMESPACE cm) w)).
Proof.
  intros Hf Hm Hd. unfold replaceNamespacedConfigMap, request, addressed.
  rewrite Hf, Hm.
  change (objects (issue _ w) !! _) with (document w). by rewrite Hd.
Qed.

(** Neither a read nor a replace waits for the lock. *)
Lemma load_not_Blocked w : (load_config_map w).1 ≠ Blocked.
Proof.
  unfold load_config_map, readNamespacedConfigMap, request.
  destruct (next_fault w); [done|]. by destruct (objects _ !! _).
Qed.

Lemma replace_not_Blocked cm nm ns w :
  (replaceNamespacedConfigMap cm nm ns w).1 ≠ Blocked.
Proof.
  unfold replaceNamespacedConfigMap, request.
  destruct (next_fault w); [done|]. destruct (negb _); [done|].
  by destruct (objects _ !! _).
Qed.

End Requests.

(** ** Programs, run and stepped *)

Section Programs.

(** A program that has ended does not move. *)
Lemma final_no_step {A} (p : prog A) w : is_Some (final p) → pstep p w = None.
Proof.
  revert w. induction p as [A a|A e|A op|A B m IHm k IHk|A m IHm f IHf];
    intros w [o Ho]; simpl in *; try done.
  - destruct (final m) as [[a|e]|]; [|done..]. apply IHk. by eexists.
  - destruct (final m) as [o'|]; [|done].
    destruct (final f) as [o''|] eqn:Hf; [|by destruct o'].
    rewrite IHf; [done | by eexists].
Qed.

Lemma solo_not_final {A} (x y : prog A * World) : solo x y → final x.1 = None.
Proof.
  unfold solo. intros Hs. destruct (final x.1) as [o|] eqn:Hf; [|done].
  rewrite final_no_step in Hs; [done | by eexists].
Qed.

(** The steps of the first part of a sequence are steps of the sequence. *)
Lemma rtc_solo_Seq {A B} (k : A → prog B) (x y : prog A * World) :
  rtc solo x y → rtc solo (Seq x.1 k, x.2) (Seq y.1 k, y.2).
Proof.
  induction 1 as [|x y z Hxy _ IH]; [done|].
  apply (rtc_l _ _ (Seq y.1 k, y.2)); [|done].
  pose proof (solo_not_final _ _ Hxy) as Hf. unfold solo in *. simpl.
  rewrite Hf, Hxy. by destruct y.
Qed.

Lemma rtc_solo_Finally {A} (f : prog unit) (x y : prog A * World) :
  rtc solo x y → rtc solo (Finally x.1 f, x.2) (Finally y.1 f, y.2).
Proof.
  induction 1 as [|x y z Hxy _ IH]; [done|].
  apply (rtc_l _ _ (Finally y.1 f, y.2)); [|done].
  pose proof (solo_not_final _ _ Hxy) as Hf. unfold solo in *. simpl.
  rewrite Hf, Hxy. by destruct y.
Qed.

(** Once the first part has returned, the sequence goes on as the rest. *)
Lemma rtc_solo_rest {A B} (m : prog A) (k : A → prog B) a w o q w' :
  final m = Some (Returned a) →
  rtc solo (k a, w) (q, w') → ends_as o q →
  ∃ q', rtc solo (Seq m k, w) (q', w') ∧ ends_as o q'.
Proof.
  intros Hm Hrtc Hend. destruct (rtc_inv _ _ Hrtc) as [Heq|(y & Hxy & Hyz)].
  - assert (q = k a) as -> by congruence. assert (w' = w) as -> by congruence.
    exists (Seq m k). split; [done|].
    destruct o; simpl in *; [by rewrite Hm..|done].
  - exists q. split; [|done].
    apply (rtc_l _ _ y); [|done]. unfold solo in *. simpl in *. by rewrite Hm.
Qed.

(** Once the body has ended, the finally clause runs and the end of the
    body is kept for after it. *)
Lemma rtc_solo_finally {A} (m : prog A) (f : prog unit) (o : ended A) w q w' :
  final m = Some o → rtc solo (f, w) (q, w') → is_Some (final q) →
  ∃ q', rtc solo (Finally m f, w) (q', w')
        ∧ final q' = match final q with
                     | Some (Returned _) => Some o
                     | Some (Raised e) => Some (Raised e)
                     | None => None
                     end.
Proof.
  intros Hm Hrtc [oq Hq]. destruct (rtc_inv _ _ Hrtc) as [Heq|(y & Hxy & Hyz)].
  - assert (q = f) as -> by congruence. assert (w' = w) as -> by congruence.
    exists (Finally m f). split; [done|]. simpl. rewrite Hm, Hq. by destruct oq.
  - exists (Seq q (λ _, rest_of o)). split.
    + apply (rtc_l _ _ (Seq y.1 (λ _, rest_of o), y.2)).
      * unfold solo in *. simpl in *. rewrite Hm, Hxy. by destruct y.
      * apply (rtc_solo_Seq (λ _, rest_of o) y (q, w')). by destruct y.
    + simpl. rewrite Hq. destruct oq; [|done]. by destruct o.
Qed.

(** A thread left alone executes its program as [run] does: when [run]
    returns or raises, the thread reaches, in the world [run] leaves, a
    program that has ended with that value or that exception. *)
Lemma run_solo {A} (p : prog A) w :
  (run p w).1 ≠ Blocked →
  ∃ q, rtc solo (p, w) (q, (run p w).2) ∧ ends_as (run p w).1 q.
Proof.
  revert w. induction p as [A a|A e|A op|A B m IHm k IHk|A m IHm f IHf]; intros w Hnb.
  - by exists (Ret a).
  - by exists (Throw e).
  - simpl in *. destruct (op w) as [[a|e|] w'] eqn:Hop; simpl in *; [| |done].
    + exists (Ret a). split; [|done]. apply rtc_once. unfold solo. simpl. by rewrite Hop.
    + exists (Throw e). split; [|done]. apply rtc_once. unfold solo. simpl. by rewrite Hop.
  - simpl in *. unfold bind in *. specialize (IHm w).
    destruct (run m w) as [[a|e|] w1]; simpl in *; [| |done].
    + destruct IHm as (m' & Hm & Hend); [done|].
      destruct (IHk a w1 Hnb) as (q & Hq & Hendq).
      destruct (rtc_solo_rest m' k a w1 _ q _ Hend Hq Hendq) as (q' & Hq' & Hend').
      exists q'. split; [|done].
      etrans; [apply (rtc_solo_Seq k (m, w) (m', w1) Hm) | exact Hq'].
    + destruct IHm as (m' & Hm & Hend); [done|].
      exists (Seq m' k). split; [apply (rtc_solo_Seq k (m, w) (m', w1) Hm)|].
      simpl. by rewrite Hend.
  - simpl in *. unfold try_finally, bind in *. specialize (IHm w).
    destruct (run m w) as [[a|e|] w1]; simpl in *; [| |done].
    + destruct IHm as (m' & Hm & Hend); [done|]. specialize (IHf w1).
      destruct (run f w1) as [[[]|e|] w2]; simpl in *; [| |done];
        destruct IHf as (q & Hq & Hendq); [done | | done |];
        destruct (rtc_solo_finally m' f (Returned a) w1 q w2 Hend Hq) as (q' & Hq' & Hf');
        try (by rewrite Hendq);
        (exists q'; split;
           [etrans; [apply (rtc_solo_Finally f (m, w) (m', w1) Hm) | exact Hq']
           | by rewrite Hf', Hendq]).
    + destruct IHm as (m' & Hm & Hend); [done|]. specialize (IHf w1).
      destruct (run f w1) as [[[]|e'|] w2]; simpl in *; [| |done];
        destruct IHf as (q & Hq & Hendq); [done | | done |];
        destruct (rtc_solo_finally m' f (Raised e) w1 q w2 Hend Hq) as (q' & Hq' & Hf');
        try (by rewrite Hendq);
        (exists q'; split;
           [etrans; [apply (rtc_solo_Finally f (m, w) (m', w1) Hm) | exact Hq']
           | by rewrite Hf', Hendq]).
Qed.

End Programs.

(** A thread that executes [save_program] alone does what the call
    [save_scheduled_job_state] does: it ends as the call ends and leaves
    the world the call leaves. *)
Lemma save_program_solo `{JobStateModel} (job_state : JobState) w :
  (save_scheduled_job_state job_state w).1 ≠ Blocked →
  ∃ q, rtc solo (save_program job_state, w)
                (q, (save_scheduled_job_state job_state w).2)
       ∧ ends_as (save_scheduled_job_state job_state w).1 q.
Proof. apply run_solo. Qed.

(** ** The operations, one by one *)

Section Operations.
Context {JobState : Type} `{JobStateModel JobState}.
Implicit Types (w : World) (cm : ConfigMap) (v : JobState) (k : string).

(** [save] in the usual situation: one read, one replace, the lock free
    again, and the usual situation holds afterwards. *)
(** [save_scheduled_job_state], with the statements of its program
    composed. *)
Lemma save_scheduled_job_state_eq v :
  save_scheduled_job_state v =
  (let* _ := acquire in
   try_finally
     (let* confMap := load_config_map in
      replaceNamespacedConfigMap (saved confMap v)
        (name (metadata (saved confMap v))) (namespace (metadata (saved confMap v))))
     release).
Proof. reflexivity. Qed.

Lemma save_ready v w cm :
  ready w cm →
  save_scheduled_job_state v w =
    (Return tt,
     {| objects := <[doc_key := saved cm v]> (objects w);
        faults := [];
        calls := calls w ++ [fetch; Replace CONFIGMAP_NAME CONFIGMAP_NAMESPACE (saved cm v)];
        mutex := false |}).
Proof.
  intros [Hd Hm Hc Hf].
  rewrite save_scheduled_job_state_eq. unfold bind, try_finally, acquire. rewrite Hf.
  rewrite (load_served _ cm); [| by apply next_fault_calm | done].
  fold (saved cm v).
  rewrite (replace_served _ (saved cm v) cm); [| by apply next_fault_calm; simpl; rewrite Hc | done | done].
  unfold bind, release, ret, set_objects, set_mutex, issue. simpl.
  rewrite Hc. simpl. by rewrite <- app_assoc.
Qed.

Lemma save_ready_again v w cm :
  ready w cm → ready (save_scheduled_job_state v w).2 (saved cm v).
Proof.
  intros Hr. rewrite (save_ready _ _ _ Hr). destruct Hr as [Hd Hm Hc Hf].
  split; simpl; try done.
  unfold document. simpl. apply lookup_insert_eq.
Qed.

Lemma get_served k w cm :
  next_fault w = None → document w = Some cm →
  get_scheduled_job_state k w = (decoded (Dict.get (data cm) k), issue fetch w).
Proof.
  intros Hf Hd. unfold get_scheduled_job_state, bind, decoded.
  rewrite (load_served _ _ Hf Hd).
  destruct (Dict.get (data cm) k) as [s|]; [|done]. by destruct (loads s).
Qed.

(** [get] changes nothing but the log and the script. *)
Lemma get_world k w : (get_scheduled_job_state k w).2 = issue fetch w.
Proof.
  unfold get_scheduled_job_state, bind.
  pose proof (load_world w) as Hw.
  destruct (load_config_map w) as [[cm|e|] w']; simpl in Hw; subst w'; try done.
  destruct (Dict.get (data cm) k) as [s|]; [|done]. by destruct (loads s).
Qed.

(** The document [delete] writes back, if it writes. *)
Lemma del_ready k w cm :
  ready w cm →
  del_scheduled_job_state k w =
    (Return tt,
     match Dict.delitem (data cm) k with
     | Some d =>
         let cm' := {| metadata := metadata cm; data := d |} in
         {| objects := <[doc_key := cm']> (objects w);
            faults := [];
            calls := calls w ++ [fetch; Replace CONFIGMAP_NAME CONFIGMAP_NAMESPACE cm'];
            mutex := false |}
     | None =>
         {| objects := objects w; faults := [];
            calls := calls w ++ [fetch]; mutex := false |}
     end).
Proof.
  intros [Hd Hm Hc Hf].
  unfold del_scheduled_job_state, bind, try_finally, acquire. rewrite Hf.
  rewrite (load_served _ cm); [| by apply next_fault_calm | done].
  destruct (Dict.get (data cm) k) as [s|] eqn:Hg.
  - destruct (delitem_is_Some (data cm) k) as [d Hdel]; [by rewrite Hg|].
    rewrite Hdel.
    rewrite (replace_served _ {| metadata := metadata cm; data := d |} cm);
      [| by apply next_fault_calm; simpl; rewrite Hc | done | done].
    unfold bind, release, ret, set_objects, set_mutex, issue. simpl.
    rewrite Hc. simpl. by rewrite <- app_assoc.
  - rewrite (delitem_None _ _ Hg).
    unfold bind, release, ret, set_mutex, issue. simpl. by rewrite Hc.
Qed.

(** Whatever the world, [save] either leaves the objects of the cluster
    alone or replaces the document it has read by [saved]. *)
Lemma save_objects v w :
  objects (save_scheduled_job_state v w).2 = objects w
  ∨ ∃ cm, document w = Some cm
      ∧ is_Some (objects w !! (namespace (metadata cm), name (metadata cm)))
      ∧ objects (save_scheduled_job_state v w).2 =
          <[(namespace (metadata cm), name (metadata cm)) := saved cm v]> (objects w).
Proof.
  rewrite save_scheduled_job_state_eq. unfold bind, try_finally, acquire.
  destruct (mutex w); [by left|].
  destruct (load_config_map (set_mutex true w)) as [[cm|e|] w1] eqn:Hl;
    [| left; pose proof (load_world (set_mutex true w)) as Hw;
       rewrite Hl in Hw; simpl in Hw; by subst w1 ..].
  apply load_Return in Hl as [Hd ->]. fold (saved cm v).
  unfold replaceNamespacedConfigMap, request.
  destruct (next_fault _); [by left|].
  destruct (negb _); [by left|].
  simpl. destruct (objects w !! _) eqn:Ho; [|by left].
  right. exists cm. split_and!; [done | by rewrite Ho | done].
Qed.

(** The same for [delete]. *)
Lemma del_objects k w :
  objects (del_scheduled_job_state k w).2 = objects w
  ∨ ∃ cm d, document w = Some cm
      ∧ Dict.delitem (data cm) k = Some d
      ∧ is_Some (objects w !! (namespace (metadata cm), name (metadata cm)))
      ∧ objects (del_scheduled_job_state k w).2 =
          <[(namespace (metadata cm), name (metadata cm)) :=
              {| metadata := metadata cm; data := d |}]> (objects w).
Proof.
  unfold del_scheduled_job_state, bind, try_finally, acquire.
  destruct (mutex w); [by left|].
  destruct (load_config_map (set_mutex true w)) as [[cm|e|] w1] eqn:Hl;
    [| left; pose proof (load_world (set_mutex true w)) as Hw;
       rewrite Hl in Hw; simpl in Hw; by subst w1 ..].
  apply load_Return in Hl as [Hd ->].
  destruct (Dict.get (data cm) k); [|by left].
  destruct (Dict.delitem (data cm) k) as [d|] eqn:Hdel; [|by left].
  unfold replaceNamespacedConfigMap, request.
  destruct (next_fault _); [by left|].
  destruct (negb _); [by left|].
  simpl. destruct (objects w !! _) eqn:Ho; [|by left].
  right. exists cm, d. split_and!; [done | done | by rewrite Ho | done].
Qed.

End Operations.

(** ** Initialisation *)

Section Initialisation.
Implicit Types (w : World) (cm : ConfigMap).

(** The document [init_scheduler_dal] creates. *)
Lemma init_served w cm :
  next_fault w = None → document w = Some cm →
  init_scheduler_dal w = (Return tt, issue fetch w).
Proof.
  intros Hf Hd. unfold init_scheduler_dal, try_except, bind.
  by rewrite (load_served _ _ Hf Hd).
Qed.

Lemma init_fault w e :
  next_fault w = Some e → e ≠ ApiException "Not Found" →
  init_scheduler_dal w = (Raise e, issue fetch w).
Proof.
  intros Hf Hne. unfold init_scheduler_dal, try_except, bind.
  rewrite (load_fault _ _ Hf). destruct e as [reason| | |]; try done.
  destruct (String.eqb_spec reason "Not Found") as [->|]; done.
Qed.

Lemma init_creates w :
  next_fault w = None → document w = None → mutex w = false →
  next_fault (issue fetch w) = None →
  init_scheduler_dal w =
    (Return tt,
     {| objects := <[doc_key := new_ConfigMap well_known]> (objects w);
        faults := tail (tail (faults w));
        calls := calls w ++ [fetch; Create CONFIGMAP_NAMESPACE (new_ConfigMap well_known)];
        mutex := false |}).
Proof.
  intros Hf Hd Hm Hf'. unfold init_scheduler_dal, try_except, bind.
  rewrite (load_missing _ Hf Hd). simpl.
  unfold acquire. simpl. rewrite Hm.
  unfold try_finally, createNamespacedConfigMap, request.
  change (next_fault (set_mutex true (issue fetch w))) with (next_fault (issue fetch w)).
  rewrite Hf'. simpl.
  change (objects w !! (CONFIGMAP_NAMESPACE, CONFIGMAP_NAME)) with (document w).
  rewrite Hd. unfold bind, release, ret, set_mutex, set_objects. simpl.
  by rewrite <- app_assoc.
Qed.

(** [init_scheduler_dal] leaves the objects alone or adds the document. *)
Lemma init_objects w :
  objects (init_scheduler_dal w).2 = objects w
  ∨ objects (init_scheduler_dal w).2 =
      <[doc_key := new_ConfigMap well_known]> (objects w).
Proof.
  unfold init_scheduler_dal, try_except, bind.
  pose proof (load_world w) as Hw.
  destruct (load_config_map w) as [[cm|e|] w1]; simpl in Hw; subst w1;
    [by left | | by left].
  destruct e as [reason| | |]; try by left.
  destruct (negb _); [by left|].
  unfold acquire. simpl. destruct (mutex w); [by left|].
  unfold try_finally, createNamespacedConfigMap, request.
  destruct (next_fault _); [by left|].
  simpl. destruct (objects w !! _); [by left | by right].
Qed.

End Initialisation.

(** ** Saving and reading back *)

Section RoundTrip.
Context {JobState : Type} `{JobStateModel JobState}.
Implicit Types (w : World) (cm : ConfigMap) (v : JobState) (k : string).

Lemma after_save {A} v w cm (m : M A) :
  ready w cm →
  (let* _ := save_scheduled_job_state v in m) w = m (save_scheduled_job_state v w).2.
Proof. intros Hr. unfold bind at 1. by rewrite (save_ready _ _ _ Hr). Qed.

Lemma get_after_save v w cm :
  ready w cm →
  (get_scheduled_job_state (playbook_id v) (save_scheduled_job_state v w).2).1 =
  decoded (Some (json v)).
Proof.
  intros Hr. pose proof (save_ready_again v _ _ Hr) as [Hd _ Hc _].
  rewrite (get_served _ _ _ (next_fault_calm _ Hc) Hd). simpl.
  by rewrite get_setitem_eq.
Qed.

(** The document after a caller has saved [jobs] in turn. *)
Lemma save_all_ready jobs w cm :
  ready w cm →
  (save_all jobs w).1 = Return tt
  ∧ ready (save_all jobs w).2 (fold_left saved jobs cm).
Proof.
  revert w cm. induction jobs as [|v jobs IH]; intros w cm Hr; [done|].
  simpl. rewrite (after_save _ _ _ _ Hr).
  apply IH. by apply save_ready_again.
Qed.

Lemma save_all_objects jobs w cm :
  ready w cm →
  objects (save_all jobs w).2 = <[doc_key := fold_left saved jobs cm]> (objects w).
Proof.
  revert w cm. induction jobs as [|v jobs IH]; intros w cm Hr.
  - simpl. symmetry. apply insert_id. apply Hr.
  - simpl. rewrite (after_save _ _ _ _ Hr).
    rewrite (IH _ _ (save_ready_again v _ _ Hr)), (save_ready v _ _ Hr). simpl.
    by rewrite insert_insert_eq.
Qed.

(** C1.  In the usual situation, for a job state [v] that survives its own
    serialisation, [save(v)] followed by [get] of [v]'s playbook id returns
    [v]; and when a second state with the same id is saved after [v], the
    same [get] returns the second state: the entry is overwritten. *)
Theorem save_then_get v w cm :
  ready w cm → loads (json v) = Some v →
  ((let* _ := save_scheduled_job_state v in
    get_scheduled_job_state (playbook_id v)) w).1 = Return (Some v)
  ∧ (∀ v', playbook_id v' = playbook_id v → loads (json v') = Some v' →
       ((let* _ := save_scheduled_job_state v in
         let* _ := save_scheduled_job_state v' in
         get_scheduled_job_state (playbook_id v)) w).1 = Return (Some v')).
Proof.
  intros Hr Hv. split.
  - rewrite (after_save _ _ _ _ Hr), (get_after_save _ _ _ Hr). simpl. by rewrite Hv.
  - intros v' Hid Hv'. rewrite (after_save _ _ _ _ Hr).
    pose proof (save_ready_again v _ _ Hr) as Hr'.
    rewrite (after_save _ _ _ _ Hr'), <- Hid, (get_after_save _ _ _ Hr').
    simpl. by rewrite Hv'.
Qed.

(** C10.  [save] has the job state as its only argument and files it
    under the state's own playbook id: in the usual situation the document
    afterwards maps that id to the serialised state, and in any world an
    entry that the document holds after [save] and did not hold before is
    that one; for a state that survives its serialisation, the key of the
    entry is the playbook id of the state decoded from its value. *)
Theorem save_files_under_own_id v w cm :
  document w = Some cm → metadata cm = well_known → loads (json v) = Some v →
  (ready w cm →
     ∃ cm', document (save_scheduled_job_state v w).2 = Some cm'
            ∧ Dict.get (data cm') (playbook_id v) = Some (json v))
  ∧ (∀ cm' k s,
       document (save_scheduled_job_state v w).2 = Some cm' →
       Dict.get (data cm') k = Some s → Dict.get (data cm) k ≠ Some s →
       k = playbook_id v ∧ s = json v
       ∧ ∃ js, loads s = Some js ∧ playbook_id js = k).
Proof.
  intros Hd Hm Hv. split.
  - intros Hr. exists (saved cm v). split.
    + apply (save_ready_again v _ _ Hr).
    + apply get_setitem_eq.
  - intros cm' k s Hd' Hg Hold. unfold document in Hd'.
    destruct (save_objects v w) as [Ho|(cm0 & Hd0 & _ & Ho)]; rewrite Ho in Hd'.
    + unfold document in Hd. congruence.
    + rewrite Hd in Hd0. injection Hd0 as <-.
      rewrite Hm in Hd'. change (namespace well_known, name well_known) with doc_key in Hd'.
      rewrite lookup_insert_eq in Hd'. injection Hd' as <-.
      simpl in Hg. rewrite get_setitem in Hg.
      destruct (decide (playbook_id v = k)) as [<-|]; [|congruence].
      injection Hg as <-. eauto.
Qed.

End RoundTrip.
(** ** Listing *)

Section Listing.
Context {JobState : Type} `{JobStateModel JobState}.
Implicit Types (w : World) (cm : ConfigMap) (k : string) (ks : list string).

Lemma issue_fetched w : faults w = [] → issue fetch w = fetched 1 w.
Proof. intros Hc. unfold issue, fetched. by rewrite Hc. Qed.

Lemma fetched_fetched n m w : fetched n (fetched m w) = fetched (m + n) w.
Proof. unfold fetched. simpl. by rewrite <- app_assoc, repeat_app. Qed.

Lemma get_outcome k w cm :
  document w = Some cm →
  (get_scheduled_job_state k w).1 =
  match next_fault w with
  | Some e => Raise e
  | None => decoded (Dict.get (data cm) k)
  end.
Proof.
  intros Hd. destruct (next_fault w) as [e|] eqn:Hf.
  - unfold get_scheduled_job_state, bind. by rewrite (load_fault _ _ Hf).
  - by rewrite (get_served _ _ _ Hf Hd).
Qed.

Lemma mapM_get_objects ks w :
  objects (mapM get_scheduled_job_state ks w).2 = objects w.
Proof.
  revert w. induction ks as [|k ks IH]; intros w; [done|].
  simpl. unfold bind at 1. pose proof (get_world k w) as Hw.
  destruct (get_scheduled_job_state k w) as [[r|e|] w1]; simpl in Hw; subst w1;
    [|done..].
  unfold bind. specialize (IH (issue fetch w)).
  by destruct (mapM get_scheduled_job_state ks (issue fetch w)) as [[rs|e|] w2].
Qed.

Lemma list_objects w : objects (list_scheduled_jobs_states w).2 = objects w.
Proof.
  unfold list_scheduled_jobs_states, bind. pose proof (load_world w) as Hw.
  destruct (load_config_map w) as [[cm|e|] w1]; simpl in Hw; subst w1; [|done..].
  by rewrite mapM_get_objects.
Qed.

(** With no failure scheduled and every listed key decodable, [get] is
    served once per key. *)
Lemma mapM_get_calm cm ks w :
  faults w = [] → document w = Some cm →
  (∀ k, k ∈ ks → ∃ s, Dict.get (data cm) k = Some s ∧ is_Some (loads s)) →
  mapM get_scheduled_job_state ks w =
    (Return (map (λ k, Dict.get (data cm) k ≫= loads) ks), fetched (length ks) w).
Proof.
  revert w. induction ks as [|k ks IH]; intros w Hc Hd Hall.
  - simpl. unfold ret, fetched. simpl. rewrite app_nil_r. by destruct w.
  - simpl. unfold bind at 1.
    rewrite (get_served _ _ _ (next_fault_calm _ Hc) Hd).
    destruct (Hall k) as (s & Hg & [js Hjs]); [left|].
    rewrite Hg. simpl. rewrite Hjs. rewrite (issue_fetched _ Hc).
    unfold bind. rewrite IH; [| done | done | intros; apply Hall; by right].
    by rewrite fetched_fetched.
Qed.

(** A key whose value does not decode makes the traversal raise. *)
Lemma mapM_get_corrupt cm k s ks w :
  document w = Some cm → Dict.get (data cm) k = Some s → loads s = None →
  k ∈ ks →
  ∃ e, (mapM get_scheduled_job_state ks w).1 = Raise e
       ∧ (faults w = [] →
          ∃ k' s', Dict.get (data cm) k' = Some s' ∧ loads s' = None
                   ∧ e = ValueError s').
Proof.
  intros Hd Hg Hs. revert w Hd.
  induction ks as [|k0 ks IH]; intros w Hd Hin; [by apply elem_of_nil in Hin|].
  simpl. unfold bind at 1.
  pose proof (get_outcome k0 w cm Hd) as Ho. pose proof (get_world k0 w) as Hw.
  destruct (get_scheduled_job_state k0 w) as [r w1]. simpl in Ho, Hw. subst w1 r.
  destruct (next_fault w) as [e|] eqn:Hf.
  { exists e. split; [done|]. intros Hc. by rewrite (next_fault_calm _ Hc) in Hf. }
  destruct (Dict.get (data cm) k0) as [s0|] eqn:Hg0; simpl.
  - destruct (loads s0) as [js|] eqn:Hs0.
    + assert (k ∈ ks) as Hin'.
      { apply elem_of_cons in Hin as [->|?]; [congruence | done]. }
      destruct (IH (issue fetch w) Hd Hin') as (e & He & Hcalm).
      unfold bind. destruct (mapM get_scheduled_job_state ks (issue fetch w)) as [r w2].
      simpl in He. subst r. exists e. split; [done|].
      intros Hc. apply Hcalm. by apply issue_calm.
    + exists (ValueError s0). split; [done|]. intros _. by exists k0, s0.
  - assert (k ∈ ks) as Hin'.
    { apply elem_of_cons in Hin as [->|?]; [congruence | done]. }
    destruct (IH (issue fetch w) Hd Hin') as (e & He & Hcalm).
    unfold bind. destruct (mapM get_scheduled_job_state ks (issue fetch w)) as [r w2].
    simpl in He. subst r. exists e. split; [done|].
    intros Hc. apply Hcalm. by apply issue_calm.
Qed.

Lemma keys_in_dict cm k :
  k ∈ Dict.keys (data cm) → ∃ s, Dict.get (data cm) k = Some s ∧ (k, s) ∈ data cm.
Proof.
  intros Hin. destruct (Dict.get (data cm) k) as [s|] eqn:Hg.
  - exists s. split; [done|]. by apply get_Some_elem.
  - by apply get_None_keys in Hg.
Qed.

Lemma decode_entries (d d0 : Dict.t) :
  (∀ kv, kv ∈ d → Dict.get d0 kv.1 = Some kv.2 ∧ is_Some (loads kv.2)) →
  ∃ states : list JobState,
    map (λ k, Dict.get d0 k ≫= loads) (Dict.keys d) = map Some states
    ∧ Forall2 (λ kv js, loads kv.2 = Some js) d states.
Proof.
  induction d as [|[k s] d IH]; intros Hall.
  - exists []. split; [done | constructor].
  - destruct IH as (states & Hmap & Hfa); [intros; apply Hall; by right|].
    destruct (Hall (k, s)) as [Hg [js Hjs]]; [left|]. simpl in Hg, Hjs.
    exists (js :: states). split.
    + simpl. rewrite Hg. simpl. rewrite Hjs. by f_equal.
    + by constructor.
Qed.

Lemma mapM_cons {A B} (f : A → M B) x l w :
  mapM f (x :: l) w =
  match f x w with
  | (Return y, w1) =>
      match mapM f l w1 with
      | (Return ys, w2) => (Return (y :: ys), w2)
      | (Raise e, w2) => (Raise e, w2)
      | (Blocked, w2) => (Blocked, w2)
      end
  | (Raise e, w1) => (Raise e, w1)
  | (Blocked, w1) => (Blocked, w1)
  end.
Proof. reflexivity. Qed.

Lemma get_not_Blocked k w : (get_scheduled_job_state k w).1 ≠ Blocked.
Proof.
  unfold get_scheduled_job_state, bind. pose proof (load_not_Blocked w) as Hnb.
  destruct (load_config_map w) as [[cm|e|] w1]; simpl in Hnb; [| done..].
  destruct (Dict.get (data cm) k) as [s|]; [|done]. by destruct (loads s).
Qed.






(** C7.  When the value stored under [k] does not decode, [get(k)] raises:
    it never returns, so never reports absence, and the error is the
    decoding error unless the read itself fails; and [listAll] raises as
    well, whatever the other entries are, with a decoding error when no
    failure is scheduled: the entry is not skipped. *)
Theorem corrupt_entry_raises w cm k s :
  document w = Some cm → Dict.get (data cm) k = Some s → loads s = None →
  (∃ e, (get_scheduled_job_state k w).1 = Raise e
        ∧ (next_fault w = None → e = ValueError s))
  ∧ (∃ e, (list_scheduled_jobs_states w).1 = Raise e
          ∧ (faults w = [] →
             ∃ k' s', Dict.get (data cm) k' = Some s' ∧ loads s' = None
                      ∧ e = ValueError s')).
Proof.
  intros Hd Hg Hs. split.
  - rewrite (get_outcome _ _ _ Hd). destruct (next_fault w) as [e|].
    + exists e. by split.
    + exists (ValueError s). rewrite Hg. simpl. by rewrite Hs.
  - unfold list_scheduled_jobs_states, bind.
    destruct (next_fault w) as [e|] eqn:Hf.
    + rewrite (load_fault _ _ Hf). exists e. split; [done|].
      intros Hc. by rewrite (next_fault_calm _ Hc) in Hf.
    + rewrite (load_served _ _ Hf Hd).
      destruct (mapM_get_corrupt cm k s (Dict.keys (data cm)) (issue fetch w))
        as (e & He & Hcalm); [done | done | done | |].
      { apply dec_stable. intros Hn. apply get_None_keys in Hn. congruence. }
      exists e. split; [done|]. intros Hc. apply Hcalm. by apply issue_calm.
Qed.

End Listing.

(** ** Deleting *)

Section Deleting.
Context {JobState : Type} `{JobStateModel JobState}.
Implicit Types (w : World) (cm : ConfigMap) (v : JobState) (k : string).

Lemma del_ready_again k w cm :
  ready w cm → ready (del_scheduled_job_state k w).2 (deleted cm k).
Proof.
  intros Hr. rewrite (del_ready _ _ _ Hr). destruct Hr as [Hd Hm Hc Hf].
  unfold deleted. destruct (Dict.delitem (data cm) k) as [d|]; split; simpl; try done.
  unfold document. simpl. apply lookup_insert_eq.
Qed.

Lemma get_deleted cm k :
  Dict.wf (data cm) → Dict.get (data (deleted cm k)) k = None.
Proof.
  intros Hwf. unfold deleted.
  destruct (Dict.delitem (data cm) k) as [d|] eqn:Hdel; simpl.
  - by apply (get_delitem_eq (data cm)).
  - destruct (Dict.get (data cm) k) eqn:Hg; [|done].
    destruct (delitem_is_Some (data cm) k) as [? ?]; [by rewrite Hg | congruence].
Qed.

Lemma del_absent k w cm :
  ready w cm → Dict.get (data cm) k = None →
  del_scheduled_job_state k w = (Return tt, fetched 1 w).
Proof.
  intros Hr Hg. rewrite (del_ready _ _ _ Hr), (delitem_None _ _ Hg).
  destruct Hr as [_ _ Hc Hf]. unfold fetched. by rewrite Hc, Hf.
Qed.

(** C5.  In the usual situation, [get(k)] after [delete(k)] returns
    absent; [delete(k)] of a key the mapping does not hold returns
    normally and leaves the world as it was but for one read in the log;
    so does a second [delete(k)] right after a first. *)
Theorem delete_then_absent k w cm :
  ready w cm →
  (Dict.wf (data cm) →
     ((let* _ := del_scheduled_job_state k in
       get_scheduled_job_state k) w).1 = Return None)
  ∧ (Dict.get (data cm) k = None →
       del_scheduled_job_state k w = (Return tt, fetched 1 w))
  ∧ (Dict.wf (data cm) →
       let w' := (del_scheduled_job_state k w).2 in
       del_scheduled_job_state k w' = (Return tt, fetched 1 w')).
Proof.
  intros Hr. pose proof (del_ready_again k _ _ Hr) as Hr'. split_and!.
  - intros Hwf. unfold bind. rewrite (del_ready _ _ _ Hr).
    rewrite (del_ready _ _ _ Hr) in Hr'. destruct Hr' as [Hd' _ Hc' _].
    rewrite (get_served _ _ _ (next_fault_calm _ Hc') Hd'), get_deleted; done.
  - by apply del_absent.
  - intros Hwf w'. apply (del_absent _ _ _ Hr'). by apply get_deleted.
Qed.

(** C8.  When the document exists under its own name, whatever else holds
    of the world (failures scheduled or not, the lock free or not), after
    [save(v)] and after [delete(k)] the document is still there with the
    same metadata, and every key other than the one concerned has the
    entry it had; and no operation of the module removes an object from
    the cluster. *)
Theorem save_delete_frame :
  (∀ w cm, document w = Some cm → metadata cm = well_known →
     (∀ v, ∃ cm', document (save_scheduled_job_state v w).2 = Some cm'
             ∧ metadata cm' = metadata cm
             ∧ ∀ k', k' ≠ playbook_id v →
                 Dict.get (data cm') k' = Dict.get (data cm) k')
     ∧ (∀ k, ∃ cm', document (del_scheduled_job_state k w).2 = Some cm'
             ∧ metadata cm' = metadata cm
             ∧ ∀ k', k' ≠ k → Dict.get (data cm') k' = Dict.get (data cm) k'))
  ∧ (∀ w key, is_Some (objects w !! key) →
       is_Some (objects (init_scheduler_dal w).2 !! key)
       ∧ (∀ v, is_Some (objects (save_scheduled_job_state v w).2 !! key))
       ∧ (∀ k, is_Some (objects (del_scheduled_job_state k w).2 !! key))
       ∧ (∀ k, is_Some (objects (get_scheduled_job_state k w).2 !! key))
       ∧ is_Some (objects (list_scheduled_jobs_states w).2 !! key)).
Proof.
  split.
  - intros w cm Hd Hm. split.
    + intros v. unfold document.
      destruct (save_objects v w) as [->|(cm0 & Hd0 & _ & ->)]; [by exists cm|].
      rewrite Hd in Hd0. injection Hd0 as <-. rewrite Hm.
      exists (saved cm v). split_and!; [apply lookup_insert_eq | done |].
      intros k' Hne. simpl. by rewrite get_setitem_ne.
    + intros k. unfold document.
      destruct (del_objects k w) as [->|(cm0 & d & Hd0 & Hdel & _ & ->)]; [by exists cm|].
      rewrite Hd in Hd0. injection Hd0 as <-. rewrite Hm.
      eexists. split_and!; [apply lookup_insert_eq | done |].
      intros k' Hne. simpl. by apply (get_delitem_ne (data cm) d k).
  - intros w key Hkey. split_and!.
    + destruct (init_objects w) as [->| ->]; [done|].
      rewrite lookup_insert. by case_decide.
    + intros v. destruct (save_objects v w) as [->|(cm0 & _ & _ & ->)]; [done|].
      rewrite lookup_insert. by case_decide.
    + intros k. destruct (del_objects k w) as [->|(cm0 & d & _ & _ & _ & ->)]; [done|].
      rewrite lookup_insert. by case_decide.
    + intros k. by rewrite get_world.
    + by rewrite list_objects.
Qed.

End Deleting.

(** ** Starting up *)

Section StartingUp.
Context {JobState : Type} `{JobStateModel JobState}.
Implicit Types (w : World) (cm : ConfigMap) (k : string).

(** The world after an initialisation that had to create the document. *)
Lemma init_creates_calm w :
  mutex w = false → faults w = [] → document w = None →
  init_scheduler_dal w =
    (Return tt,
     {| objects := <[doc_key := new_ConfigMap well_known]> (objects w);
        faults := [];
        calls := calls w ++ [fetch; Create CONFIGMAP_NAMESPACE (new_ConfigMap well_known)];
        mutex := false |}).
Proof.
  intros Hm Hc Hd.
  rewrite init_creates;
    [ by rewrite Hc | by apply next_fault_calm | done | done
    | by apply next_fault_calm, issue_calm ].
Qed.

Lemma repeat_init_served n w cm :
  faults w = [] → document w = Some cm →
  repeatM n init_scheduler_dal w = (Return tt, fetched n w).
Proof.
  revert w. induction n as [|n IH]; intros w Hc Hd.
  - simpl. unfold ret, fetched. simpl. rewrite app_nil_r. by destruct w.
  - simpl. unfold bind.
    rewrite (init_served _ _ (next_fault_calm _ Hc) Hd), (issue_fetched _ Hc).
    rewrite IH; [| done | done]. by rewrite fetched_fetched.
Qed.

Lemma count_repeat_fetch p n :
  p fetch = false → count p (repeat fetch n) = 0.
Proof.
  intros Hp. unfold count. induction n as [|n IH]; [done|].
  simpl. rewrite filter_cons_False; [done|]. by rewrite Hp.
Qed.

(** C2.  [N >= 1] calls of [initialize()] in a row, when the document does
    not exist, no failure is scheduled and the lock is free, all return,
    and the requests they issue are a read, one create of the empty
    document, and [N - 1] further reads: one create, no replace.  When the
    document exists and the read does not report not-found, one call
    issues its read and nothing else: the world afterwards is the world
    with that read issued. *)
Theorem init_creates_once :
  (∀ (N : nat) w, (1 ≤ N)%nat → mutex w = false → faults w = [] → document w = None →
     let new := fetch :: Create CONFIGMAP_NAMESPACE (new_ConfigMap well_known)
                  :: repeat fetch (N - 1) in
     repeatM N init_scheduler_dal w =
       (Return tt,
        {| objects := <[doc_key := new_ConfigMap well_known]> (objects w);
           faults := []; calls := calls w ++ new; mutex := false |})
     ∧ count is_create new = 1 ∧ count is_replace new = 0)
  ∧ (∀ w cm, document w = Some cm →
       next_fault w ≠ Some (ApiException "Not Found") →
       (init_scheduler_dal w).2 = issue fetch w
       ∧ count is_write [fetch] = 0
       ∧ (next_fault w = None → (init_scheduler_dal w).1 = Return tt)).
Proof.
  split.
  - intros N w HN Hm Hc Hd. destruct N as [|n]; [lia|].
    replace (S n - 1) with n by lia. intros new. subst new. split_and!.
    + simpl. unfold bind. rewrite (init_creates_calm _ Hm Hc Hd).
      rewrite (repeat_init_served n _ (new_ConfigMap well_known)); [| done |].
      * unfold fetched. simpl. by rewrite <- app_assoc.
      * unfold document. simpl. apply lookup_insert_eq.
    + unfold count in *. rewrite filter_cons_False, filter_cons_True by done.
      simpl. f_equal. by apply (count_repeat_fetch is_create).
    + unfold count in *. rewrite !filter_cons_False by done.
      by apply (count_repeat_fetch is_replace).
  - intros w cm Hd Hnf. split_and!; [|done|].
    + destruct (next_fault w) as [e|] eqn:Hf.
      * rewrite (init_fault _ e); [done | done | congruence].
      * by rewrite (init_served _ _ Hf Hd).
    + intros Hf. by rewrite (init_served _ _ Hf Hd).
Qed.

(** C3.  When the read of [initialize()] raises not-found and the lock is
    free, the next and last request is the create of the document with the
    well-known name and namespace and an empty mapping; when the cluster
    serves that create, the call returns normally and the cluster holds
    the document.  When the read raises anything else, the call raises the
    same exception, the read is the only request issued, and the objects
    of the cluster are unchanged. *)
Theorem init_on_failed_read w e w1 :
  load_config_map w = (Raise e, w1) →
  (e = ApiException "Not Found" → mutex w = false →
     calls (init_scheduler_dal w).2 =
       calls w ++ [fetch; Create CONFIGMAP_NAMESPACE
                            {| metadata := mkMeta CONFIGMAP_NAME CONFIGMAP_NAMESPACE;
                               data := [] |}]
     ∧ (next_fault w1 = None → document w = None →
          (init_scheduler_dal w).1 = Return tt
          ∧ objects (init_scheduler_dal w).2 =
              <[doc_key := {| metadata := mkMeta CONFIGMAP_NAME CONFIGMAP_NAMESPACE;
                              data := [] |}]> (objects w)))
  ∧ (e ≠ ApiException "Not Found" →
       init_scheduler_dal w = (Raise e, w1)
       ∧ calls w1 = calls w ++ [fetch] ∧ objects w1 = objects w).
Proof.
  intros Hl. pose proof (load_world w) as Hw. rewrite Hl in Hw. simpl in Hw. subst w1.
  split.
  - intros -> Hm. unfold init_scheduler_dal, try_except, bind. rewrite Hl. simpl.
    unfold acquire. simpl. rewrite Hm.
    unfold try_finally, createNamespacedConfigMap, request.
    change (next_fault (set_mutex true (issue fetch w))) with (next_fault (issue fetch w)).
    destruct (next_fault (issue fetch w)) as [e|]; simpl.
    + split; [by rewrite <- app_assoc | done].
    + change (objects w !! (CONFIGMAP_NAMESPACE, CONFIGMAP_NAME)) with (document w).
      destruct (document w); simpl.
      * split; [by rewrite <- app_assoc | done].
      * split; [by rewrite <- app_assoc | done].
  - intros Hne. split_and!; [|done..].
    unfold init_scheduler_dal, try_except, bind. rewrite Hl.
    destruct e as [reason| | |]; try done.
    destruct (String.eqb_spec reason "Not Found") as [->|]; done.
Qed.

(** C6.  [get(k)] of a key the mapping does not hold returns absent,
    issuing its read and nothing else; in particular right after an
    [initialize()] that has created the document, for every key. *)
Theorem get_of_unsaved_key k w :
  (∀ cm, next_fault w = None → document w = Some cm →
     Dict.get (data cm) k = None →
     get_scheduled_job_state k w = (Return None, issue fetch w))
  ∧ (mutex w = false → faults w = [] → document w = None →
       ((let* _ := init_scheduler_dal in get_scheduled_job_state k) w).1
       = Return None).
Proof.
  split.
  - intros cm Hf Hd Hg. by rewrite (get_served _ _ _ Hf Hd), Hg.
  - intros Hm Hc Hd. unfold bind. rewrite (init_creates_calm _ Hm Hc Hd).
    rewrite (get_served _ _ (new_ConfigMap well_known)); [done | done |].
    unfold document. simpl. apply lookup_insert_eq.
Qed.

End StartingUp.

(** ** Threads saving concurrently *)

Section Concurrency.
Context {JobState : Type} `{JobStateModel JobState}.
Implicit Types (w : World) (cm : ConfigMap) (v : JobState) (p : pc)
  (ts : list (JobState * pc)) (jobs : list JobState).

(** A thread inside the critical section can always move. *)
Lemma critical_can_step v p w :
  critical p = true → is_Some (thread_step v p w).
Proof.
  destruct p as [| |cm|cm|r|r]; simpl; try done; intros _.
  - pose proof (load_not_Blocked w).
    destruct (load_config_map w) as [[?|?|] ?]; simpl in *; [by eexists.. | done].
  - pose proof (replace_not_Blocked
                  cm (name (metadata cm)) (namespace (metadata cm)) w).
    destruct (replaceNamespacedConfigMap _ _ _ w) as [[?|?|] ?]; simpl in *;
      [by eexists.. | done].
Qed.

(** Every statement executed is one statement less to execute. *)
Lemma thread_step_remaining v p w p' w' :
  thread_step v p w = Some (p', w') → remaining p' < remaining p.
Proof.
  destruct p as [| |cm|cm|r|r]; simpl.
  - unfold acquire. destruct (mutex w); [done|]. intros [= <- _]. simpl. lia.
  - destruct (load_config_map w) as [[?|?|] ?]; intros [= <- _]; simpl; lia.
  - intros [= <- _]. simpl. lia.
  - destruct (replaceNamespacedConfigMap _ _ _ w) as [[?|?|] ?];
      intros [= <- _]; simpl; lia.
  - intros [= <- _]. simpl. lia.
  - done.
Qed.

Lemma work_insert ts i (t t' : JobState * pc) :
  ts !! i = Some t → remaining t'.2 < remaining t.2 →
  work (<[i := t']> ts) < work ts.
Proof.
  unfold work. revert i. induction ts as [|t0 ts IH]; intros [|i]; simpl.
  - done.
  - done.
  - intros [= ->] ?. lia.
  - intros Hi Hlt. specialize (IH i Hi Hlt). lia.
Qed.

Lemma step_work s s' : step s s' → work s'.2 < work s.2.
Proof.
  intros [w w' ts i v p p' Hi Hstep]. simpl.
  apply (work_insert ts i (v, p) (v, p')); [done|]. simpl.
  by apply (thread_step_remaining v p w p' w').
Qed.

Lemma spawn_lookup jobs i t : spawn jobs !! i = Some t → t.2 = AtAcquire.
Proof.
  unfold spawn. rewrite list_lookup_fmap.
  destruct (jobs !! i); simpl; [|done]. by intros [= <-].
Qed.

Lemma spawn_jobs jobs : map fst (spawn jobs) = jobs.
Proof. unfold spawn. induction jobs as [|v jobs IH]; simpl; by f_equal. Qed.

(** The invariant holds when the threads start. *)
Lemma inv_spawn jobs w doc : ready w doc → inv jobs w (spawn jobs).
Proof.
  intros [Hd Hm Hc Hf]. split.
  - apply spawn_jobs.
  - done.
  - exists doc. split_and!; [done..|].
    intros i t Hi. unfold thread_ok. by rewrite (spawn_lookup _ _ _ Hi).
  - intros i j ti tj Hi _ Hci. by rewrite (spawn_lookup _ _ _ Hi) in Hci.
  - rewrite Hf. split; [done|].
    intros (i & t & Hi & Hct). by rewrite (spawn_lookup _ _ _ Hi) in Hct.
Qed.

(** When a thread is in the critical section, or the lock is free, the
    other threads are outside. *)
Lemma others_outside jobs w ts i v p :
  inv jobs w ts → ts !! i = Some (v, p) →
  critical p = true ∨ mutex w = false →
  ∀ j t, j ≠ i → ts !! j = Some t → critical t.2 = false.
Proof.
  intros Hinv Hi Hor j t Hne Hj.
  destruct (critical t.2) eqn:Hct; [|done]. exfalso.
  destruct Hor as [Hcp|Hfree].
  - apply Hne. by apply (inv_excl _ _ _ Hinv j i t (v, p)).
  - assert (mutex w = true) as Hlocked by (apply (inv_lock _ _ _ Hinv); eauto).
    congruence.
Qed.

(** The invariant after a statement of thread [i], from what the
    statement does to the world and to the thread. *)
Lemma inv_update jobs w ts i v p p' w' doc doc' :
  inv jobs w ts → ts !! i = Some (v, p) →
  document w = Some doc →
  critical p = true ∨ mutex w = false →
  faults w' = [] → document w' = Some doc' → metadata doc' = well_known →
  mutex w' = critical p' →
  thread_ok doc' (v, p') →
  (∀ j t, j ≠ i → ts !! j = Some t → critical t.2 = false →
          thread_ok doc t → thread_ok doc' t) →
  inv jobs w' (<[i := (v, p')]> ts).
Proof.
  intros Hinv Hi Hd Hor Hc' Hd' Hm' Hlock Hok Hothers.
  pose proof (others_outside _ _ _ _ _ _ Hinv Hi Hor) as Hout.
  destruct (inv_doc _ _ _ Hinv) as (doc0 & Hd0 & _ & Hoks).
  rewrite Hd in Hd0. injection Hd0 as <-.
  split.
  - rewrite <- (inv_jobs _ _ _ Hinv).
    change (map fst ?l) with (fst <$> l). rewrite list_fmap_insert. simpl.
    apply list_insert_id. by rewrite list_lookup_fmap, Hi.
  - done.
  - exists doc'. split_and!; [done..|].
    intros j t [(-> & <- & _)|[Hne Hj]]%list_lookup_insert_Some; [done|].
    apply (Hothers j); eauto.
  - intros j k tj tk
      [(-> & <- & _)|[Hnj Hj]]%list_lookup_insert_Some
      [(-> & <- & _)|[Hnk Hk]]%list_lookup_insert_Some Hcj Hck; [done | | |].
    + rewrite (Hout k tk) in Hck; done.
    + rewrite (Hout j tj) in Hcj; done.
    + by apply (inv_excl _ _ _ Hinv j k tj tk).
  - rewrite Hlock. split.
    + intros Hcp. exists i, (v, p'). split; [|done].
      apply list_lookup_insert_eq. by apply lookup_lt_Some in Hi.
    + intros (j & t & [(-> & <- & _)|[Hne Hj]]%list_lookup_insert_Some & Hct);
        [done|]. rewrite (Hout j t) in Hct; done.
Qed.

Lemma inv_locked jobs w ts i v p :
  inv jobs w ts → ts !! i = Some (v, p) → critical p = true → mutex w = true.
Proof. intros Hinv Hi Hcp. apply (inv_lock _ _ _ Hinv). by exists i, (v, p). Qed.

(** Threads with different positions save under different keys. *)
Lemma distinct_ids jobs w ts i j v p t :
  NoDup (map playbook_id jobs) → inv jobs w ts →
  ts !! i = Some (v, p) → ts !! j = Some t → j ≠ i →
  playbook_id v ≠ playbook_id t.1.
Proof.
  intros Hnd Hinv Hi Hj Hne Heq. apply Hne.
  rewrite <- (inv_jobs _ _ _ Hinv) in Hnd.
  apply (NoDup_lookup _ j i (playbook_id v) Hnd).
  - change (map ?f ?l) with (f <$> l).
    rewrite !list_lookup_fmap, Hj. simpl. by rewrite Heq.
  - change (map ?f ?l) with (f <$> l).
    by rewrite !list_lookup_fmap, Hi.
Qed.

(** Every step of the system keeps the invariant. *)
Lemma inv_step jobs s s' :
  NoDup (map playbook_id jobs) →
  inv jobs s.1 s.2 → step s s' → inv jobs s'.1 s'.2.
Proof.
  intros Hnd Hinv Hs. revert Hinv.
  destruct Hs as [w w' ts i v p p' Hi Hstep]. simpl. intros Hinv.
  destruct (inv_doc _ _ _ Hinv) as (doc & Hd & Hm & Hoks).
  pose proof (inv_calm _ _ _ Hinv) as Hc.
  pose proof (Hoks i _ Hi) as Hok. unfold thread_ok in Hok. simpl in Hok.
  destruct p as [| |cm|cm|r|r]; simpl in Hstep.
  - unfold acquire in Hstep. destruct (mutex w) eqn:Hmx; [done|].
    injection Hstep as <- <-.
    apply (inv_update jobs w ts i v AtAcquire AtLoad _ doc doc); auto.
  - rewrite (load_served w doc (next_fault_calm _ Hc) Hd) in Hstep.
    injection Hstep as <- <-.
    apply (inv_update jobs w ts i v AtLoad (AtAssign doc) _ doc doc); auto.
    + by apply issue_calm.
    + simpl. by apply (inv_locked jobs w ts i v AtLoad).
    + done.
  - injection Hstep as <- <-. subst cm.
    apply (inv_update jobs w ts i v (AtAssign doc) (AtReplace (saved doc v)) _ doc doc);
      auto.
    + simpl. by apply (inv_locked jobs w ts i v (AtAssign doc)).
    + done.
  - subst cm.
    rewrite (replace_served w (saved doc v) doc (next_fault_calm _ Hc) Hm Hd) in Hstep.
    injection Hstep as <- <-.
    apply (inv_update jobs w ts i v (AtReplace (saved doc v)) (AtRelease None) _
             doc (saved doc v)); auto.
    + simpl. by rewrite Hc.
    + unfold document. simpl. apply lookup_insert_eq.
    + simpl. by apply (inv_locked jobs w ts i v (AtReplace (saved doc v))).
    + split; [done|]. simpl. apply get_setitem_eq.
    + intros j t Hne Hj Hct. unfold thread_ok.
      destruct t.2 eqn:Ht; try done. intros [-> Hg]. split; [done|].
      simpl. rewrite get_setitem_ne; [done|].
      by apply (distinct_ids jobs w ts i j v (AtReplace (saved doc v)) t).
  - injection Hstep as <- <-.
    apply (inv_update jobs w ts i v (AtRelease r) (Finished r) _ doc doc); auto.
  - done.
Qed.

Lemma inv_reachable jobs s s' :
  NoDup (map playbook_id jobs) →
  inv jobs s.1 s.2 → rtc step s s' → inv jobs s'.1 s'.2.
Proof.
  intros Hnd Hinv Hrtc. induction Hrtc as [|s1 s2 s3 Hstep _ IH]; [done|].
  apply IH. by apply (inv_step jobs s1 s2).
Qed.

(** A thread left alone executes [save_scheduled_job_state]: the
    statements of the thread model are those of the function. *)
Lemma thread_runs_save v w :
  mutex w = false →
  ∃ r, run_alone 5 v AtAcquire w = (Finished r, (save_scheduled_job_state v w).2)
       ∧ (save_scheduled_job_state v w).1 =
           match r with None => Return tt | Some e => Raise e end.
Proof.
  intros Hm.
  rewrite save_scheduled_job_state_eq. unfold bind, try_finally, run_alone, thread_step, acquire.
  rewrite Hm. pose proof (load_not_Blocked (set_mutex true w)) as Hnb.
  destruct (load_config_map (set_mutex true w)) as [[cm|e|] w1]; simpl in Hnb;
    [| by exists (Some e) | done].
  pose proof (replace_not_Blocked
                {| metadata := metadata cm;
                   data := Dict.setitem (data cm) (playbook_id v) (json v) |}
                (name (metadata cm)) (namespace (metadata cm)) w1) as Hnb'.
  simpl.
  destruct (replaceNamespacedConfigMap _ _ _ w1) as [[[]|e|] w2]; simpl in Hnb';
    [by exists None | by exists (Some e) | done].
Qed.

(** No deadlock: while a thread has statements left, some thread can
    move. *)
Lemma inv_progress jobs w ts :
  inv jobs w ts → ¬ all_finished ts → ∃ s', step (w, ts) s'.
Proof.
  intros Hinv Hnot. unfold all_finished in Hnot.
  apply not_Forall_Exists in Hnot; [|apply _].
  apply Exists_exists in Hnot as ([v p] & Hin & Hnf). simpl in Hnf.
  apply list_elem_of_lookup in Hin as [i Hi].
  destruct (mutex w) eqn:Hmx.
  - apply (inv_lock _ _ _ Hinv) in Hmx as (j & [vj pj] & Hj & Hcj).
    destruct (critical_can_step vj pj w Hcj) as [[p' w'] Hstep].
    eexists. by apply (step_thread w w' ts j vj pj p').
  - destruct p as [| |cm|cm|r|r];
      try (by rewrite (inv_locked jobs w ts i v _ Hinv Hi) in Hmx).
    exists (set_mutex true w, <[i := (v, AtLoad)]> ts).
    apply (step_thread w (set_mutex true w) ts i v AtAcquire AtLoad); [done|].
    simpl. unfold acquire. by rewrite Hmx.
Qed.

(** Some schedule runs every thread to its end; since every step
    decreases [work], every schedule does. *)
Lemma inv_completes jobs n s :
  NoDup (map playbook_id jobs) →
  (work s.2 ≤ n)%nat → inv jobs s.1 s.2 → ∃ s', rtc step s s' ∧ all_finished s'.2.
Proof.
  intros Hnd. revert s. induction n as [|n IH]; intros [w ts] Hn Hinv;
    (destruct (decide (all_finished ts)) as [Hall|Hnot];
     [by exists (w, ts) |]);
    destruct (inv_progress _ _ _ Hinv Hnot) as [s1 Hstep];
    pose proof (step_work _ _ Hstep) as Hlt; simpl in *; [lia|].
  destruct (IH s1) as (s' & Hrtc & Hall); [lia | by apply (inv_step jobs (w, ts)) |].
  exists s'. split; [|done]. by apply (rtc_l _ _ s1).
Qed.

(** The invariant at the end: every job has its entry. *)
Lemma inv_all_finished jobs w ts :
  inv jobs w ts → all_finished ts →
  ∃ doc, document w = Some doc
         ∧ ∀ v, v ∈ jobs → Dict.get (data doc) (playbook_id v) = Some (json v).
Proof.
  intros Hinv Hall. destruct (inv_doc _ _ _ Hinv) as (doc & Hd & _ & Hoks).
  exists doc. split; [done|]. intros v Hv.
  rewrite <- (inv_jobs _ _ _ Hinv) in Hv.
  apply (list_elem_of_fmap_1 fst) in Hv as ([v' p] & -> & Hin).
  apply list_elem_of_lookup in Hin as [i Hi].
  pose proof (Hoks i _ Hi) as Hok. unfold thread_ok in Hok.
  unfold all_finished in Hall. rewrite Forall_lookup in Hall.
  specialize (Hall i _ Hi). simpl in *.
  destruct p; try done. by destruct Hok.
Qed.

(** *** The places and the programs *)

(** Under the invariant, [pstep] moves the program of a thread as
    [thread_step] moves its place. *)
Lemma pstep_program_at jobs w ts i v p :
  inv jobs w ts → ts !! i = Some (v, p) →
  pstep (program_at v p) w =
  (λ r : pc * World, (program_at v r.1, r.2)) <$> thread_step v p w.
Proof.
  intros Hinv Hi.
  destruct (inv_doc _ _ _ Hinv) as (doc & Hd & Hm & Hoks).
  pose proof (inv_calm _ _ _ Hinv) as Hc.
  pose proof (Hoks i _ Hi) as Hok. unfold thread_ok in Hok. simpl in Hok.
  destruct p as [| |cm|cm|r|r]; simpl.
  - unfold acquire. by destruct (mutex w).
  - by rewrite (load_served w doc (next_fault_calm _ Hc) Hd).
  - done.
  - subst cm.
    by rewrite (replace_served w (saved doc v) doc (next_fault_calm _ Hc) Hm Hd).
  - by destruct r.
  - by destruct r.
Qed.

Lemma final_program_at v p :
  final (program_at v p) = if finished p then Some (end_of
    match p with Finished r => r | _ => None end) else None.
Proof. destruct p as [| |cm|cm|[e|]|[e|]]; reflexivity. Qed.

Lemma programs_spawn jobs : programs (spawn jobs) = map save_program jobs.
Proof. unfold programs, spawn. by rewrite map_map. Qed.

Lemma programs_done ts : pool_done (programs ts) ↔ all_finished ts.
Proof.
  unfold pool_done, all_finished, programs.
  change (map ?f ?l) with (f <$> l). rewrite Forall_fmap.
  apply Forall_proper; [|done]. intros [v p]. simpl.
  rewrite final_program_at. destruct (finished p); [|split; [intros [? ?]|]; done].
  split; [done | intros _; by eexists].
Qed.

(** A step of the pool of programs is a step of the places, and the other
    way round. *)
Lemma pool_step_places jobs w ts s' :
  inv jobs w ts → pool_step (w, programs ts) s' →
  ∃ ts', s' = (s'.1, programs ts') ∧ step (w, ts) (s'.1, ts').
Proof.
  intros Hinv Hs. inversion Hs as [w1 w' ps i p p' Hi Hstep]; subst.
  unfold programs in Hi. change (map ?f ?l) with (f <$> l) in Hi.
  rewrite list_lookup_fmap in Hi.
  destruct (ts !! i) as [[v pc0]|] eqn:Hti; [|done]. simpl in Hi.
  injection Hi as <-.
  rewrite (pstep_program_at jobs w ts i v pc0 Hinv Hti) in Hstep.
  destruct (thread_step v pc0 w) as [[pc1 w1]|] eqn:Hts; [|done].
  simpl in Hstep. injection Hstep as <- <-.
  exists (<[i := (v, pc1)]> ts). simpl. split.
  - unfold programs. change (map ?f ?l) with (f <$> l).
    by rewrite list_fmap_insert.
  - by apply (step_thread w w1 ts i v pc0 pc1).
Qed.

Lemma step_pool jobs s s' :
  inv jobs s.1 s.2 → step s s' →
  pool_step (s.1, programs s.2) (s'.1, programs s'.2).
Proof.
  intros Hinv Hs. revert Hinv.
  destruct Hs as [w w' ts i v p p' Hi Hstep]. simpl. intros Hinv.
  unfold programs. change (map ?f ?l) with (f <$> l).
  rewrite list_fmap_insert. simpl.
  apply (pool_step_thread w w' _ i (program_at v p)).
  - by rewrite list_lookup_fmap, Hi.
  - by rewrite (pstep_program_at jobs w ts i v p Hinv Hi), Hstep.
Qed.

Lemma pool_nsteps_places jobs n w ts s :
  NoDup (map playbook_id jobs) → inv jobs w ts →
  nsteps pool_step n (w, programs ts) s →
  ∃ ts', s = (s.1, programs ts') ∧ nsteps step n (w, ts) (s.1, ts').
Proof.
  intros Hnd Hinv Hn. remember (w, programs ts) as x eqn:Hx.
  revert w ts Hinv Hx. induction Hn as [x|n x y z Hxy Hyz IH]; intros w ts Hinv ->.
  - exists ts. split; [done | constructor].
  - destruct (pool_step_places jobs w ts y Hinv Hxy) as (ts1 & Hy & Hstep).
    destruct (IH y.1 ts1) as (ts' & Hz & Hsteps).
    + by apply (inv_step jobs (w, ts) (y.1, ts1)).
    + done.
    + exists ts'. split; [done|]. by apply (nsteps_l _ _ _ (y.1, ts1)).
Qed.

Lemma rtc_step_pool jobs s s' :
  NoDup (map playbook_id jobs) → inv jobs s.1 s.2 → rtc step s s' →
  rtc pool_step (s.1, programs s.2) (s'.1, programs s'.2).
Proof.
  intros Hnd Hinv Hrtc. induction Hrtc as [|s1 s2 s3 Hstep _ IH]; [done|].
  apply (rtc_l _ _ (s2.1, programs s2.2)).
  - by apply (step_pool jobs).
  - apply IH. by apply (inv_step jobs s1 s2).
Qed.

(** Every step is one statement less: a run has at most as many steps as
    there are statements. *)
Lemma nsteps_work n s s' : nsteps step n s s' → (n + work s'.2 ≤ work s.2)%nat.
Proof.
  induction 1 as [|n x y z Hxy _ IH]; [done|].
  pose proof (step_work _ _ Hxy). lia.
Qed.

Lemma work_spawn jobs : work (spawn jobs) = 5 * length jobs.
Proof. unfold work, spawn. induction jobs as [|v jobs IH]; simpl in *; lia. Qed.

(** *** The order of the writes *)

Lemma writers_insert_same ts i v p p' :
  ts !! i = Some (v, p) → written p' = written p →
  writers (<[i := (v, p')]> ts) = writers ts.
Proof.
  unfold writers. revert i. induction ts as [|[v0 p0] ts IH]; intros [|i]; simpl; try done.
  - intros [= -> ->] Hw. rewrite !filter_cons. simpl. rewrite Hw.
    by destruct (decide (written p = true)).
  - intros Hi Hw. rewrite !filter_cons. simpl.
    destruct (decide (written p0 = true)); simpl; by rewrite (IH i Hi Hw).
Qed.

Lemma writers_insert_new ts i v p p' :
  ts !! i = Some (v, p) → written p = false → written p' = true →
  writers (<[i := (v, p')]> ts) ≡ₚ v :: writers ts.
Proof.
  unfold writers. revert i. induction ts as [|[v0 p0] ts IH]; intros i Hi Hw Hw'.
  - by destruct i.
  - destruct i as [|i]; simpl in Hi |- *; rewrite !filter_cons; simpl.
    + injection Hi as -> ->.
      destruct (decide (written p' = true)) as [_|Hn]; [|congruence].
      destruct (decide (written p = true)) as [Hy|_]; [congruence|]. done.
    + destruct (decide (written p0 = true)); simpl.
      * rewrite (IH i Hi Hw Hw'). apply Permutation_swap.
      * by rewrite (IH i Hi Hw Hw').
Qed.

Lemma writers_spawn jobs : writers (spawn jobs) = [].
Proof.
  unfold writers, spawn. induction jobs as [|v jobs IH]; [done|].
  simpl. rewrite filter_cons. simpl.
  destruct (decide (false = true)) as [?|_]; done.
Qed.

Lemma writers_all_finished ts : all_finished ts → writers ts = map fst ts.
Proof.
  unfold writers, all_finished. induction 1 as [|[v p] ts Hp _ IH]; [done|].
  rewrite filter_cons. simpl in *.
  destruct (decide (written p = true)) as [_|Hn]; [simpl; by rewrite <- IH|].
  by destruct p.
Qed.

Lemma serial_spawn jobs w doc : ready w doc → serial (objects w) doc w (spawn jobs).
Proof.
  intros Hr. exists []. rewrite writers_spawn. split; [done|].
  simpl. symmetry. apply insert_id. apply Hr.
Qed.

(** Every write is the [save] of one more job state on top of the writes
    before it. *)
Lemma serial_step jobs objects0 doc0 s s' :
  inv jobs s.1 s.2 → serial objects0 doc0 s.1 s.2 → step s s' →
  serial objects0 doc0 s'.1 s'.2.
Proof.
  intros Hinv Hser Hs. revert Hinv Hser.
  destruct Hs as [w w' ts i v p p' Hi Hstep]. simpl.
  intros Hinv (order & Hperm & Hobj).
  destruct (inv_doc _ _ _ Hinv) as (doc & Hd & Hm & Hoks).
  pose proof (inv_calm _ _ _ Hinv) as Hc.
  pose proof (Hoks i _ Hi) as Hok. unfold thread_ok in Hok. simpl in Hok.
  destruct p as [| |cm|cm|r|r]; simpl in Hstep.
  - unfold acquire in Hstep. destruct (mutex w); [done|]. injection Hstep as <- <-.
    exists order. by rewrite (writers_insert_same ts i v AtAcquire AtLoad).
  - rewrite (load_served w doc (next_fault_calm _ Hc) Hd) in Hstep.
    injection Hstep as <- <-.
    exists order. by rewrite (writers_insert_same ts i v AtLoad (AtAssign doc)).
  - injection Hstep as <- <-.
    exists order. by rewrite (writers_insert_same ts i v (AtAssign cm) (AtReplace _)).
  - subst cm.
    rewrite (replace_served w (saved doc v) doc (next_fault_calm _ Hc) Hm Hd) in Hstep.
    injection Hstep as <- <-.
    exists (order ++ [v]). split.
    + rewrite (writers_insert_new ts i v (AtReplace (saved doc v)) (AtRelease None));
        [| done..].
      rewrite <- Hperm. by rewrite Permutation_app_comm.
    + simpl. rewrite Hobj, insert_insert_eq, fold_left_app. simpl.
      unfold document in Hd. rewrite Hobj, lookup_insert_eq in Hd.
      by injection Hd as ->.
  - injection Hstep as <- <-.
    exists order. by rewrite (writers_insert_same ts i v (AtRelease r) (Finished r)).
  - done.
Qed.

Lemma serial_reachable jobs objects0 doc0 s s' :
  NoDup (map playbook_id jobs) →
  inv jobs s.1 s.2 → serial objects0 doc0 s.1 s.2 → rtc step s s' →
  serial objects0 doc0 s'.1 s'.2.
Proof.
  intros Hnd Hinv Hser Hrtc.
  induction Hrtc as [|s1 s2 s3 Hstep _ IH]; [done|].
  apply IH; [by apply (inv_step jobs s1 s2) | by apply (serial_step jobs _ _ s1 s2)].
Qed.

(** C9.  Threads of one process each run [save_scheduled_job_state] with
    one job state, the playbook ids all different, on a cluster that holds
    the document, with no failure scheduled and the lock free.  Each
    thread executes the statements of [save_program], the program that
    [save_scheduled_job_state] runs, one statement per step, and the
    threads interleave in any order the lock allows.  Then: some
    interleaving runs all the threads to their end; no run has more than
    five steps per thread; as long as a thread is not at its end, some
    thread can move; and in every state that a run reaches with all the
    threads at their end, every thread has returned, the document maps the
    playbook id of every job to its serialised state, and the objects of
    the cluster are those that [save_scheduled_job_state], called for the
    job states one after the other in some order, leaves: no update is
    lost. *)
Theorem concurrent_saves_all_survive jobs w0 doc0 :
  NoDup (map playbook_id jobs) → ready w0 doc0 →
  let s0 := (w0, map save_program jobs) in
  (∃ s, rtc pool_step s0 s ∧ pool_done s.2)
  ∧ (∀ n s, nsteps pool_step n s0 s → (n ≤ 5 * length jobs)%nat)
  ∧ (∀ s, rtc pool_step s0 s →
       (¬ pool_done s.2 → ∃ s', pool_step s s')
       ∧ (pool_done s.2 →
            Forall (λ q : prog unit, final q = Some (Returned tt)) s.2
            ∧ (∃ doc, document s.1 = Some doc
                 ∧ ∀ v, v ∈ jobs →
                     Dict.get (data doc) (playbook_id v) = Some (json v))
            ∧ (∃ order, order ≡ₚ jobs
                 ∧ (save_all order w0).1 = Return tt
                 ∧ objects s.1 = objects (save_all order w0).2))).
Proof.
  intros Hnd Hr s0. subst s0. rewrite <- programs_spawn.
  pose proof (inv_spawn jobs w0 doc0 Hr) as Hinv0.
  split_and!.
  - destruct (inv_completes jobs (work (spawn jobs)) (w0, spawn jobs))
      as ([w ts] & Hrtc & Hall); [done | done | done |].
    exists (w, programs ts). split; [|by apply programs_done].
    by apply (rtc_step_pool jobs (w0, spawn jobs) (w, ts)).
  - intros n s Hn.
    destruct (pool_nsteps_places jobs n w0 (spawn jobs) s Hnd Hinv0 Hn)
      as (ts & _ & Hsteps).
    apply nsteps_work in Hsteps. simpl in Hsteps. rewrite work_spawn in Hsteps. lia.
  - intros s Hrtc. apply rtc_nsteps in Hrtc as [n Hn].
    destruct (pool_nsteps_places jobs n w0 (spawn jobs) s Hnd Hinv0 Hn)
      as (ts & -> & Hsteps).
    assert (rtc step (w0, spawn jobs) (s.1, ts)) as Hrtc
      by (apply rtc_nsteps; by exists n).
    pose proof (inv_reachable jobs (w0, spawn jobs) (s.1, ts) Hnd Hinv0 Hrtc) as Hinv.
    simpl in Hinv |- *. split.
    + rewrite programs_done. intros Hnot.
      destruct (inv_progress jobs _ _ Hinv Hnot) as [s' Hstep].
      exists (s'.1, programs s'.2).
      by apply (step_pool jobs (s.1, ts) s').
    + rewrite programs_done. intros Hall. split_and!.
      * unfold programs. change (map ?f ?l) with (f <$> l). rewrite Forall_fmap.
        destruct (inv_doc _ _ _ Hinv) as (doc & _ & _ & Hoks).
        apply Forall_lookup. intros i [v p] Hi. simpl.
        unfold all_finished in Hall. rewrite Forall_lookup in Hall.
        specialize (Hall i _ Hi). simpl in Hall.
        destruct p as [| | | | |r]; try done.
        by destruct (Hoks i _ Hi) as [-> _].
      * by apply (inv_all_finished jobs s.1 ts).
      * destruct (serial_reachable jobs (objects w0) doc0 (w0, spawn jobs) (s.1, ts)
                    Hnd Hinv0 (serial_spawn jobs w0 doc0 Hr) Hrtc)
          as (order & Hperm & Hobj).
        simpl in Hperm, Hobj.
        rewrite (writers_all_finished ts Hall), (inv_jobs jobs s.1 ts Hinv) in Hperm.
        exists order. split_and!; [done | apply (save_all_ready order w0 doc0 Hr) |].
        by rewrite (save_all_objects order w0 doc0 Hr).
Qed.

End Concurrency.

(** [save] then [get] on the sample model, starting from an empty
    document. *)
Lemma save_then_get_witness :
  let v := Sample.mk "job-1" 2 in
  ((let* _ := save_scheduled_job_state v in
    get_scheduled_job_state (playbook_id v)) (Sample.world_with [])).1 = Return (Some v).
Proof.
  intros v.
  refine (proj1 (save_then_get v (Sample.world_with []) {| metadata := well_known; data := [] |} _ _)).
  - split; vm_compute; reflexivity.
  - vm_compute; reflexivity.
Defined.

(** [save] of a second job next to a first one, on the sample model. *)
Lemma save_files_under_own_id_witness :
  let v := Sample.mk "job-1" 2 in
  let w := Sample.world_with [("job-0", "job-0#")] in
  ∃ cm', document (save_scheduled_job_state v w).2 = Some cm'
         ∧ Dict.get (data cm') (playbook_id v) = Some (json v).
Proof.
  intros v w.
  refine (proj1 (save_files_under_own_id v w
           {| metadata := well_known; data := [("job-0", "job-0#")] |} _ _ _) _).
  - vm_compute; reflexivity.
  - reflexivity.
  - vm_compute; reflexivity.
  - split; vm_compute; reflexivity.
Defined.



(** Three initialisations of a cluster without the document. *)
Lemma init_creates_once_witness :
  let new := fetch :: Create CONFIGMAP_NAMESPACE (new_ConfigMap well_known)
               :: repeat fetch (3 - 1) in
  repeatM 3 init_scheduler_dal Sample.bare_world =
    (Return tt,
     {| objects := <[doc_key := new_ConfigMap well_known]> (objects Sample.bare_world);
        faults := []; calls := calls Sample.bare_world ++ new; mutex := false |})
  ∧ count is_create new = 1 ∧ count is_replace new = 0.
Proof.
  refine (proj1 init_creates_once 3 Sample.bare_world _ _ _ _).
  - lia.
  - reflexivity.
  - reflexivity.
  - vm_compute; reflexivity.
Defined.

(** Initialisation of a cluster without the document, and of a cluster
    that refuses the read. *)
Lemma init_on_failed_read_witness :
  (calls (init_scheduler_dal Sample.bare_world).2 =
     calls Sample.bare_world
     ++ [fetch; Create CONFIGMAP_NAMESPACE
                  {| metadata := mkMeta CONFIGMAP_NAME CONFIGMAP_NAMESPACE; data := [] |}])
  ∧ (let w := {| objects := ∅; faults := [Some (ApiException "Forbidden")];
                 calls := []; mutex := false |} in
     init_scheduler_dal w = (Raise (ApiException "Forbidden"), issue fetch w)).
Proof.
  split.
  - refine (proj1 (proj1 (init_on_failed_read Sample.bare_world
                            (ApiException "Not Found") (issue fetch Sample.bare_world) _)
                     _ _)).
    + vm_compute; reflexivity.
    + reflexivity.
    + reflexivity.
  - intros w.
    refine (proj1 (proj2 (init_on_failed_read w (ApiException "Forbidden") (issue fetch w) _) _)).
    + vm_compute; reflexivity.
    + intros [=].
Defined.

(** [delete] then [get] of a key that was there. *)
Lemma delete_then_absent_witness :
  let d := [("job-1", "job-1#"); ("job-2", "job-2#+")] in
  ((let* _ := del_scheduled_job_state "job-1" in
    get_scheduled_job_state (JobState := Sample.state) "job-1") (Sample.world_with d)).1
  = Return None.
Proof.
  intros d.
  refine (proj1 (delete_then_absent (JobState := Sample.state) "job-1" (Sample.world_with d)
                   {| metadata := well_known; data := d |} _) _).
  - split; vm_compute; reflexivity.
  - unfold Dict.wf. apply (bool_decide_unpack _). vm_compute. exact I.
Defined.

(** [get] of a key next to another one. *)
Lemma get_of_unsaved_key_witness :
  let w := Sample.world_with [("job-1", "job-1#")] in
  get_scheduled_job_state (JobState := Sample.state) "job-2" w
  = (Return None, issue fetch w).
Proof.
  intros w.
  refine (proj1 (get_of_unsaved_key (JobState := Sample.state) "job-2" w)
            {| metadata := well_known; data := [("job-1", "job-1#")] |} _ _ _);
    vm_compute; reflexivity.
Defined.

(** A document with a value that is not the encoding of a sample state. *)
Lemma corrupt_entry_raises_witness :
  let w := Sample.world_with [("job-1", "job-1#"); ("job-2", "nonsense")] in
  (∃ e, (get_scheduled_job_state (JobState := Sample.state) "job-2" w).1 = Raise e
        ∧ (next_fault w = None → e = ValueError "nonsense"))
  ∧ (∃ e, (list_scheduled_jobs_states (JobState := Sample.state) w).1 = Raise e
          ∧ (faults w = [] →
             ∃ k' s', Dict.get [("job-1", "job-1#"); ("job-2", "nonsense")] k' = Some s'
                      ∧ loads (JobState := Sample.state) s' = None
                      ∧ e = ValueError s')).
Proof.
  intros w.
  refine (corrupt_entry_raises (JobState := Sample.state) w
            {| metadata := well_known;
               data := [("job-1", "job-1#"); ("job-2", "nonsense")] |}
            "job-2" "nonsense" _ _ _);
    vm_compute; reflexivity.
Defined.

(** [save] of one job leaves the entry of another alone. *)
Lemma save_delete_frame_witness :
  let d := [("job-1", "job-1#"); ("job-2", "job-2#+")] in
  ∃ cm', document (save_scheduled_job_state (Sample.mk "job-2" 5) (Sample.world_with d)).2
         = Some cm'
         ∧ metadata cm' = well_known
         ∧ ∀ k', k' ≠ "job-2" → Dict.get (data cm') k' = Dict.get d k'.
Proof.
  intros d.
  refine (proj1 (proj1 (save_delete_frame (JobState := Sample.state))
                   (Sample.world_with d) {| metadata := well_known; data := d |} _ _)
            (Sample.mk "job-2" 5)).
  - vm_compute; reflexivity.
  - reflexivity.
Defined.

(** Two threads saving two jobs into an empty document. *)
Lemma concurrent_saves_all_survive_witness :
  let jobs := [Sample.mk "job-1" 0; Sample.mk "job-2" 1] in
  let w0 := Sample.world_with [] in
  let s0 := (w0, map save_program jobs) in
  (∃ s, rtc pool_step s0 s ∧ pool_done s.2)
  ∧ (∀ s, rtc pool_step s0 s → pool_done s.2 →
       ∃ order, order ≡ₚ jobs
                ∧ (save_all order w0).1 = Return tt
                ∧ objects s.1 = objects (save_all order w0).2).
Proof.
  intros jobs w0 s0.
  assert (NoDup (map playbook_id jobs)) as Hnd.
  { apply (bool_decide_unpack _). vm_compute. exact I. }
  assert (ready w0 {| metadata := well_known; data := [] |}) as Hr.
  { split; vm_compute; reflexivity. }
  destruct (concurrent_saves_all_survive jobs w0
              {| metadata := well_known; data := [] |} Hnd Hr) as (Hex & _ & Hall).
  split; [exact Hex|].
  intros s Hs Hdone. exact (proj2 (proj2 (proj2 (Hall s Hs) Hdone))).
Defined.

(** * Further properties of the module *)

(** ** The lock and the requests, in any world *)

Section Discipline.
Context {JobState : Type} `{JobStateModel JobState}.
Implicit Types (w : World) (cm : ConfigMap) (v : JobState) (k : string).

(** What a replace and a create do to the world, whatever they answer. *)
Lemma replace_world cm nm ns w :
  let w' := (replaceNamespacedConfigMap cm nm ns w).2 in
  mutex w' = mutex w ∧ calls w' = calls w ++ [Replace nm ns cm]
  ∧ faults w' = tail (faults w).
Proof.
  unfold replaceNamespacedConfigMap, request.
  destruct (next_fault w); [done|]. destruct (negb _); [done|].
  by destruct (objects _ !! _).
Qed.

Lemma create_world cm ns w :
  let w' := (createNamespacedConfigMap cm ns w).2 in
  mutex w' = mutex w ∧ calls w' = calls w ++ [Create ns cm]
  ∧ faults w' = tail (faults w).
Proof.
  unfold createNamespacedConfigMap, request.
  destruct (next_fault w); [done|]. destruct (negb _); [done|].
  by destruct (objects _ !! _).
Qed.

Lemma create_not_Blocked cm ns w :
  (createNamespacedConfigMap cm ns w).1 ≠ Blocked.
Proof.
  unfold createNamespacedConfigMap, request.
  destruct (next_fault w); [done|]. destruct (negb _); [done|].
  by destruct (objects _ !! _).
Qed.

(** X1.  The lock does not leak: started with the lock free, each of
    [init_scheduler_dal], [save_scheduled_job_state] and
    [del_scheduled_job_state] ends with the lock free, whether it returns
    or raises, whatever the cluster holds and whatever failures are
    scheduled. *)
Theorem lock_free_afterwards w :
  mutex w = false →
  mutex (init_scheduler_dal w).2 = false
  ∧ (∀ v, mutex (save_scheduled_job_state v w).2 = false)
  ∧ (∀ k, mutex (del_scheduled_job_state k w).2 = false).
Proof.
  intros Hm. split_and!.
  - unfold init_scheduler_dal, try_except, bind.
    pose proof (load_world w) as Hw.
    destruct (load_config_map w) as [[cm|e|] w1]; simpl in Hw; subst w1; [done| |done].
    destruct e as [reason| | |]; try done.
    destruct (negb _); [done|].
    unfold acquire. simpl. rewrite Hm.
    unfold try_finally, bind, release.
    by destruct (createNamespacedConfigMap _ _ _) as [[[]|e|] w2] eqn:Hc;
      pose proof (create_not_Blocked
                    (new_ConfigMap (mkMeta CONFIGMAP_NAME CONFIGMAP_NAMESPACE))
                    CONFIGMAP_NAMESPACE (set_mutex true (issue fetch w))) as Hnb;
      simpl in Hnb; rewrite Hc in Hnb.
  - intros v. rewrite save_scheduled_job_state_eq. unfold bind, try_finally, acquire.
    rewrite Hm. pose proof (load_not_Blocked (set_mutex true w)) as Hnb.
    destruct (load_config_map (set_mutex true w)) as [[cm|e|] w1]; [|done..].
    fold (saved cm v).
    pose proof (replace_not_Blocked (saved cm v)
                  (name (metadata (saved cm v))) (namespace (metadata (saved cm v))) w1)
      as Hnb'.
    by destruct (replaceNamespacedConfigMap _ _ _ w1) as [[[]|e|] w2].
  - intros k. unfold del_scheduled_job_state, bind, try_finally, acquire.
    rewrite Hm. pose proof (load_not_Blocked (set_mutex true w)) as Hnb.
    destruct (load_config_map (set_mutex true w)) as [[cm|e|] w1]; [|done..].
    destruct (Dict.get (data cm) k); [|done].
    destruct (Dict.delitem (data cm) k) as [d|]; [|done].
    pose proof (replace_not_Blocked {| metadata := metadata cm; data := d |}
                  (name (metadata cm)) (namespace (metadata cm)) w1) as Hnb'.
    by destruct (replaceNamespacedConfigMap _ _ _ w1) as [[[]|e|] w2].
Qed.

(** X2.  While the lock is held, [save] and [delete] wait at their first
    statement: nothing is read, nothing is written, the world is as it
    was. *)
Theorem writers_wait_for_lock w :
  mutex w = true →
  (∀ v, save_scheduled_job_state v w = (Blocked, w))
  ∧ (∀ k, del_scheduled_job_state k w = (Blocked, w)).
Proof.
  intros Hm. split; intros ?.
  - rewrite save_scheduled_job_state_eq. unfold bind, acquire. by rewrite Hm.
  - unfold del_scheduled_job_state, bind, acquire. by rewrite Hm.
Qed.

Lemma mapM_get_reads ks w :
  (mapM get_scheduled_job_state ks w).1 ≠ Blocked
  ∧ mutex (mapM get_scheduled_job_state ks w).2 = mutex w
  ∧ ∃ n : nat, (n ≤ length ks)%nat
      ∧ calls (mapM get_scheduled_job_state ks w).2 = calls w ++ repeat fetch n.
Proof.
  revert w. induction ks as [|k ks IH]; intros w.
  - simpl. split_and!; [done..|]. exists 0. split; [done|]. simpl. by rewrite app_nil_r.
  - rewrite mapM_cons.
    pose proof (get_world k w) as Hw. pose proof (get_not_Blocked k w) as Hnb.
    destruct (get_scheduled_job_state k w) as [[r|e|] w1]; simpl in Hw, Hnb; subst w1;
      [| | done].
    + destruct (IH (issue fetch w)) as (Hb & Hm & n & Hn & Hc).
      destruct (mapM get_scheduled_job_state ks (issue fetch w)) as [[rs|e|] w2];
        simpl in Hb, Hm, Hc |- *; [| | done].
      * split_and!; [done..|]. exists (S n). split; [lia|].
        rewrite Hc. simpl. by rewrite <- app_assoc.
      * split_and!; [done..|]. exists (S n). split; [lia|].
        rewrite Hc. simpl. by rewrite <- app_assoc.
    + simpl. split_and!; [done..|]. exists 1. split; [lia | done].
Qed.

(** X3.  [get] and [list] only read, in any world: they never wait for
    the lock, even when it is held; they leave the objects of the cluster
    and the lock as they are; and every request they issue is the read of
    the document, one for [get] and between one and [1 + length ks] for a
    [list] that finds the keys [ks]. *)
Theorem readers_only_read w :
  (∀ k, (get_scheduled_job_state k w).1 ≠ Blocked
        ∧ (get_scheduled_job_state k w).2 = issue fetch w)
  ∧ (let r := list_scheduled_jobs_states w in
     r.1 ≠ Blocked ∧ objects r.2 = objects w ∧ mutex r.2 = mutex w
     ∧ ∃ n : nat, (1 ≤ n)%nat ∧ calls r.2 = calls w ++ repeat fetch n
            ∧ ∀ cm, document w = Some cm →
                (n ≤ 1 + length (Dict.keys (data cm)))%nat).
Proof.
  split.
  - intros k. split; [apply get_not_Blocked | apply get_world].
  - split_and!; [| apply list_objects | |].
    + unfold list_scheduled_jobs_states, bind. pose proof (load_not_Blocked w) as Hnb.
      destruct (load_config_map w) as [[cm|e|] w1]; simpl in Hnb; [| done..].
      apply mapM_get_reads.
    + unfold list_scheduled_jobs_states, bind. pose proof (load_world w) as Hw.
      destruct (load_config_map w) as [[cm|e|] w1]; simpl in Hw; subst w1; [|done..].
      by destruct (mapM_get_reads (Dict.keys (data cm)) (issue fetch w)) as (_ & -> & _).
    + unfold list_scheduled_jobs_states, bind.
      destruct (load_config_map w) as [[cm|e|] w1] eqn:Hl.
      * apply load_Return in Hl as [Hd ->].
        destruct (mapM_get_reads (Dict.keys (data cm)) (issue fetch w))
          as (_ & _ & n & Hn & Hc).
        exists (S n). split_and!; [lia | |].
        -- rewrite Hc. simpl. by rewrite <- app_assoc.
        -- intros cm' Hd'. rewrite Hd in Hd'. injection Hd' as <-. lia.
      * pose proof (load_world w) as Hw. rewrite Hl in Hw. simpl in Hw. subst w1.
        exists 1. split_and!; [done | done | intros; lia].
      * pose proof (load_not_Blocked w) as Hnb. by rewrite Hl in Hnb.
Qed.

Lemma issue_under_lock c w :
  mutex w = false → set_mutex false (issue c (set_mutex true w)) = issue c w.
Proof. intros Hm. unfold set_mutex, issue. simpl. by rewrite Hm. Qed.

(** X4.  None of the four operations creates the document: when the
    cluster does not hold it and the read is not made to fail otherwise,
    [get], [list], [save] and [delete] all raise the not-found exception of
    their read, and the world afterwards is the old one with that read
    logged. *)
Theorem missing_document_raises w :
  next_fault w = None → document w = None →
  (∀ k, get_scheduled_job_state k w
        = (Raise (ApiException "Not Found"), issue fetch w))
  ∧ list_scheduled_jobs_states w
    = (Raise (ApiException "Not Found"), issue fetch w)
  ∧ (mutex w = false →
       (∀ v, save_scheduled_job_state v w = (Raise (ApiException "Not Found"), issue fetch w))
       ∧ (∀ k, del_scheduled_job_state k w = (Raise (ApiException "Not Found"), issue fetch w))).
Proof.
  intros Hf Hd. split_and!.
  - intros k. unfold get_scheduled_job_state, bind. by rewrite (load_missing _ Hf Hd).
  - unfold list_scheduled_jobs_states, bind. by rewrite (load_missing _ Hf Hd).
  - intros Hm. split; intros ?.
    + rewrite save_scheduled_job_state_eq. unfold bind, try_finally, acquire. rewrite Hm.
      rewrite (load_missing (set_mutex true w)); [| done | done].
      unfold bind, release, raise. by rewrite (issue_under_lock _ _ Hm).
    + unfold del_scheduled_job_state, bind, try_finally, acquire. rewrite Hm.
      rewrite (load_missing (set_mutex true w)); [| done | done].
      unfold bind, release, raise. by rewrite (issue_under_lock _ _ Hm).
Qed.

(** A request that does not return leaves the objects alone. *)
Lemma replace_failed cm nm ns w :
  (replaceNamespacedConfigMap cm nm ns w).1 ≠ Return tt →
  objects (replaceNamespacedConfigMap cm nm ns w).2 = objects w.
Proof.
  unfold replaceNamespacedConfigMap, request.
  destruct (next_fault w); [done|]. destruct (negb _); [done|].
  by destruct (objects _ !! _).
Qed.

Lemma create_failed cm ns w :
  (createNamespacedConfigMap cm ns w).1 ≠ Return tt →
  objects (createNamespacedConfigMap cm ns w).2 = objects w.
Proof.
  unfold createNamespacedConfigMap, request.
  destruct (next_fault w); [done|]. destruct (negb _); [done|].
  by destruct (objects _ !! _).
Qed.

(** X5.  No half-done write: when [init_scheduler_dal], [save] or
    [delete] does not return normally (it raises, or waits for the lock),
    the objects of the cluster are what they were. *)
Theorem failure_writes_nothing w :
  ((init_scheduler_dal w).1 ≠ Return tt →
     objects (init_scheduler_dal w).2 = objects w)
  ∧ (∀ v, (save_scheduled_job_state v w).1 ≠ Return tt →
          objects (save_scheduled_job_state v w).2 = objects w)
  ∧ (∀ k, (del_scheduled_job_state k w).1 ≠ Return tt →
          objects (del_scheduled_job_state k w).2 = objects w).
Proof.
  split_and!.
  - unfold init_scheduler_dal, try_except, bind.
    pose proof (load_world w) as Hw.
    destruct (load_config_map w) as [[cm|e|] w1]; simpl in Hw; subst w1; [done| |done].
    destruct e as [reason| | |]; try done.
    destruct (negb _); [done|].
    unfold acquire. simpl. destruct (mutex w); [done|].
    unfold try_finally, bind, release.
    pose proof (create_failed
                  (new_ConfigMap (mkMeta CONFIGMAP_NAME CONFIGMAP_NAMESPACE))
                  CONFIGMAP_NAMESPACE (set_mutex true (issue fetch w))) as Hcf.
    simpl in Hcf.
    destruct (createNamespacedConfigMap _ _ _) as [[[]|e|] w2]; simpl in *;
      [done | intros _; by apply Hcf | intros _; by apply Hcf].
  - intros v. rewrite save_scheduled_job_state_eq. unfold bind, try_finally, acquire.
    destruct (mutex w); [done|].
    pose proof (load_world (set_mutex true w)) as Hw.
    destruct (load_config_map (set_mutex true w)) as [[cm|e|] w1];
      simpl in Hw; subst w1; [|done..].
    fold (saved cm v).
    pose proof (replace_failed (saved cm v)
                  (name (metadata (saved cm v))) (namespace (metadata (saved cm v)))
                  (issue fetch (set_mutex true w))) as Hrf.
    destruct (replaceNamespacedConfigMap _ _ _ _) as [[[]|e|] w2]; simpl in *;
      [done | intros _; by apply Hrf | intros _; by apply Hrf].
  - intros k. unfold del_scheduled_job_state, bind, try_finally, acquire.
    destruct (mutex w); [done|].
    pose proof (load_world (set_mutex true w)) as Hw.
    destruct (load_config_map (set_mutex true w)) as [[cm|e|] w1];
      simpl in Hw; subst w1; [|done..].
    destruct (Dict.get (data cm) k); [|done].
    destruct (Dict.delitem (data cm) k) as [d|]; [|done].
    pose proof (replace_failed {| metadata := metadata cm; data := d |}
                  (name (metadata cm)) (namespace (metadata cm))
                  (issue fetch (set_mutex true w))) as Hrf.
    destruct (replaceNamespacedConfigMap _ _ _ _) as [[[]|e|] w2]; simpl in *;
      [done | intros _; by apply Hrf | intros _; by apply Hrf].
Qed.

(** X6.  In any world, the requests a call
    adds to the log are: for [init_scheduler_dal], the read, followed by
    the create of the empty document only when that read has raised
    not-found; for [save], nothing, or the read, or the read followed by
    the replace of the document just read with the one entry set; for
    [delete], nothing, or the read, or the read followed by the replace of
    the document just read without the one entry.  So no write goes out
    without a read in the same call, [init_scheduler_dal] never replaces,
    and [save] and [delete] never create. *)
Theorem writers_requests w :
  (∃ new, calls (init_scheduler_dal w).2 = calls w ++ new
     ∧ (new = [fetch]
        ∨ (load_config_map w).1 = Raise (ApiException "Not Found")
          ∧ new = [fetch; Create CONFIGMAP_NAMESPACE (new_ConfigMap well_known)]))
  ∧ (∀ v, ∃ new, calls (save_scheduled_job_state v w).2 = calls w ++ new
       ∧ (new = [] ∨ new = [fetch]
          ∨ ∃ cm, document w = Some cm
              ∧ new = [fetch; Replace (name (metadata cm)) (namespace (metadata cm))
                                (saved cm v)]))
  ∧ (∀ k, ∃ new, calls (del_scheduled_job_state k w).2 = calls w ++ new
       ∧ (new = [] ∨ new = [fetch]
          ∨ ∃ cm d, document w = Some cm ∧ Dict.delitem (data cm) k = Some d
              ∧ new = [fetch; Replace (name (metadata cm)) (namespace (metadata cm))
                                {| metadata := metadata cm; data := d |}])).
Proof.
  split_and!.
  - unfold init_scheduler_dal, try_except, bind.
    destruct (load_config_map w) as [[cm|e|] w1] eqn:Hl;
      pose proof (load_world w) as Hw; rewrite Hl in Hw; simpl in Hw; subst w1;
      [by exists [fetch]; split; [|left] | | by exists [fetch]; split; [|left]].
    destruct e as [reason| | |]; try (by exists [fetch]; split; [|left]).
    destruct (String.eqb_spec reason "Not Found") as [->|Hne]; simpl;
      [|by exists [fetch]; split; [|left]].
    unfold acquire. simpl. destruct (mutex w); [by exists [fetch]; split; [|left]|].
    unfold try_finally, bind, release.
    destruct (create_world (new_ConfigMap (mkMeta CONFIGMAP_NAME CONFIGMAP_NAMESPACE))
                CONFIGMAP_NAMESPACE (set_mutex true (issue fetch w))) as (_ & Hc & _).
    pose proof (create_not_Blocked
                  (new_ConfigMap (mkMeta CONFIGMAP_NAME CONFIGMAP_NAMESPACE))
                  CONFIGMAP_NAMESPACE (set_mutex true (issue fetch w))) as Hnb.
    exists [fetch; Create CONFIGMAP_NAMESPACE (new_ConfigMap well_known)].
    split; [|by right].
    destruct (createNamespacedConfigMap _ _ _) as [[[]|e|] w2]; simpl in *;
      [| | done]; rewrite Hc; by rewrite <- app_assoc.
  - intros v. rewrite save_scheduled_job_state_eq. unfold bind, try_finally, acquire.
    destruct (mutex w); [exists []; split; [by rewrite app_nil_r | by left]|].
    destruct (load_config_map (set_mutex true w)) as [[cm|e|] w1] eqn:Hl;
      [| pose proof (load_world (set_mutex true w)) as Hw; rewrite Hl in Hw;
         simpl in Hw; subst w1; exists [fetch]; split; [done | by right; left] ..].
    apply load_Return in Hl as [Hd ->]. fold (saved cm v).
    destruct (replace_world (saved cm v)
                (name (metadata (saved cm v))) (namespace (metadata (saved cm v)))
                (issue fetch (set_mutex true w))) as (_ & Hc & _).
    pose proof (replace_not_Blocked (saved cm v)
                  (name (metadata (saved cm v))) (namespace (metadata (saved cm v)))
                  (issue fetch (set_mutex true w))) as Hnb.
    eexists. split; [|right; right; exists cm; split; [exact Hd | reflexivity]].
    destruct (replaceNamespacedConfigMap _ _ _ _) as [[[]|e|] w2]; simpl in *;
      [| | done]; rewrite Hc; by rewrite <- app_assoc.
  - intros k. unfold del_scheduled_job_state, bind, try_finally, acquire.
    destruct (mutex w); [exists []; split; [by rewrite app_nil_r | by left]|].
    destruct (load_config_map (set_mutex true w)) as [[cm|e|] w1] eqn:Hl;
      [| pose proof (load_world (set_mutex true w)) as Hw; rewrite Hl in Hw;
         simpl in Hw; subst w1; exists [fetch]; split; [done | by right; left] ..].
    apply load_Return in Hl as [Hd ->].
    destruct (Dict.get (data cm) k);
      [| exists [fetch]; split; [done | by right; left]].
    destruct (Dict.delitem (data cm) k) as [d|] eqn:Hdel;
      [| exists [fetch]; split; [done | by right; left]].
    destruct (replace_world {| metadata := metadata cm; data := d |}
                (name (metadata cm)) (namespace (metadata cm))
                (issue fetch (set_mutex true w))) as (_ & Hc & _).
    pose proof (replace_not_Blocked {| metadata := metadata cm; data := d |}
                  (name (metadata cm)) (namespace (metadata cm))
                  (issue fetch (set_mutex true w))) as Hnb.
    eexists. split;
      [|right; right; exists cm, d; split_and!; [exact Hd | exact Hdel | reflexivity]].
    destruct (replaceNamespacedConfigMap _ _ _ _) as [[[]|e|] w2]; simpl in *;
      [| | done]; rewrite Hc; by rewrite <- app_assoc.
Qed.

End Discipline.

(** ** How the operations compose *)

Section Composition.
Context {JobState : Type} `{JobStateModel JobState}.
Implicit Types (w : World) (cm : ConfigMap) (v : JobState) (k : string)
  (d : Dict.t) (jobs : list JobState).

Lemma setitem_setitem d k s s' :
  Dict.setitem (Dict.setitem d k s) k s' = Dict.setitem d k s'.
Proof.
  induction d as [|[k0 s0] d IH]; simpl.
  - by rewrite String.eqb_refl.
  - destruct (String.eqb_spec k0 k) as [->|Hne]; simpl.
    + by rewrite String.eqb_refl.
    + destruct (String.eqb_spec k0 k); [done|]. by rewrite IH.
Qed.

Lemma setitem_fresh d k s :
  Dict.get d k = None → Dict.setitem d k s = d ++ [(k, s)].
Proof.
  induction d as [|[k0 s0] d IH]; simpl; [done|].
  destruct (String.eqb_spec k0 k); [done|]. intros Hg. by rewrite IH.
Qed.

Lemma delitem_setitem_fresh d k s :
  Dict.get d k = None → Dict.delitem (Dict.setitem d k s) k = Some d.
Proof.
  induction d as [|[k0 s0] d IH]; simpl.
  - by rewrite String.eqb_refl.
  - destruct (String.eqb_spec k0 k) as [->|Hne]; [done|]. intros Hg. simpl.
    destruct (String.eqb_spec k0 k); [done|]. by rewrite IH.
Qed.

Lemma elem_of_setitem d k s (x : string * string) :
  x ∈ Dict.setitem d k s → x ∈ d ∨ x = (k, s).
Proof.
  induction d as [|[k0 s0] d IH]; simpl.
  - intros ->%list_elem_of_singleton. by right.
  - destruct (String.eqb_spec k0 k) as [->|Hne].
    + intros [->|Hin]%elem_of_cons; [by right | left; by right].
    + intros [->|Hin]%elem_of_cons; [left; left|].
      destruct (IH Hin) as [?|?]; [left; by right | by right].
Qed.

Lemma elem_of_delitem d d' k (x : string * string) :
  Dict.delitem d k = Some d' → x ∈ d' → x ∈ d.
Proof.
  revert d'. induction d as [|[k0 s0] d IH]; simpl; intros d' Hdel; [done|].
  destruct (String.eqb_spec k0 k) as [->|Hne].
  - injection Hdel as <-. intros. by right.
  - destruct (Dict.delitem d k) as [d''|]; [|done]. injection Hdel as <-.
    intros [->|Hin]%elem_of_cons; [left | right; by apply (IH d'')].
Qed.

Lemma saved_twice cm v : saved (saved cm v) v = saved cm v.
Proof. unfold saved. simpl. by rewrite setitem_setitem. Qed.

(** X7.  Saving the same state twice is saving it once: in the usual
    situation the second [save] leaves the objects of the cluster exactly
    as the first has left them. *)
Theorem save_twice_is_save_once v w cm :
  ready w cm →
  objects (save_scheduled_job_state v (save_scheduled_job_state v w).2).2
  = objects (save_scheduled_job_state v w).2.
Proof.
  intros Hr. pose proof (save_ready_again v _ _ Hr) as Hr'.
  rewrite (save_ready v _ _ Hr'). rewrite (save_ready v _ _ Hr). simpl.
  by rewrite saved_twice, insert_insert_eq.
Qed.

(** X8.  [delete] undoes the [save] of a new key: in the usual situation,
    when the mapping does not hold the playbook id of [v], [save(v)]
    followed by [delete] of that id returns and leaves the objects of the
    cluster, the order of the mapping included, exactly as they were. *)
Theorem delete_undoes_save v w cm :
  ready w cm → Dict.get (data cm) (playbook_id v) = None →
  ((let* _ := save_scheduled_job_state v in
    del_scheduled_job_state (playbook_id v)) w).1 = Return tt
  ∧ objects ((let* _ := save_scheduled_job_state v in
              del_scheduled_job_state (playbook_id v)) w).2 = objects w.
Proof.
  intros Hr Hg. rewrite (after_save _ _ _ _ Hr).
  pose proof (save_ready_again v _ _ Hr) as Hr'.
  rewrite (del_ready _ _ _ Hr'). split; [done|].
  simpl. rewrite (delitem_setitem_fresh _ _ _ Hg).
  rewrite (save_ready v _ _ Hr). simpl. rewrite insert_insert_eq.
  destruct Hr as [Hd _ _ _]. apply insert_id. by destruct cm.
Qed.

(** X9.  Saves under different playbook ids commute as far as [get] can
    tell: in the usual situation, after [save(a); save(b)] and after
    [save(b); save(a)] every [get] has the same outcome. *)
Theorem saves_commute_for_get a b k w cm :
  ready w cm → playbook_id a ≠ playbook_id b →
  ((let* _ := save_scheduled_job_state a in
    let* _ := save_scheduled_job_state b in
    get_scheduled_job_state k) w).1
  = ((let* _ := save_scheduled_job_state b in
      let* _ := save_scheduled_job_state a in
      get_scheduled_job_state k) w).1.
Proof.
  intros Hr Hne.
  assert (∀ x y, playbook_id x ≠ playbook_id y →
    ((let* _ := save_scheduled_job_state x in
      let* _ := save_scheduled_job_state y in
      get_scheduled_job_state k) w).1
    = decoded (if decide (playbook_id y = k) then Some (json y)
               else if decide (playbook_id x = k) then Some (json x)
               else Dict.get (data cm) k)) as Hxy.
  { intros x y Hxy. rewrite (after_save _ _ _ _ Hr).
    pose proof (save_ready_again x _ _ Hr) as Hr1.
    rewrite (after_save _ _ _ _ Hr1).
    pose proof (save_ready_again y _ _ Hr1) as [Hd2 _ Hc2 _].
    rewrite (get_served _ _ _ (next_fault_calm _ Hc2) Hd2). simpl.
    by rewrite !get_setitem. }
  rewrite (Hxy a b Hne), (Hxy b a); [|congruence].
  repeat case_decide; congruence.
Qed.

Lemma fold_saved_meta jobs cm : metadata (fold_left saved jobs cm) = metadata cm.
Proof. revert cm. induction jobs as [|v jobs IH]; intros cm; [done|]. simpl. by rewrite IH. Qed.

Lemma get_app_None d d' k :
  Dict.get (d ++ d') k = None ↔ Dict.get d k = None ∧ Dict.get d' k = None.
Proof.
  rewrite !get_None_keys. unfold Dict.keys.
  change (map fst ?l) with (fst <$> l). rewrite fmap_app, not_elem_of_app. done.
Qed.

(** New keys are appended in the order of the saves. *)
Lemma fold_saved_fresh jobs cm :
  NoDup (map playbook_id jobs) →
  (∀ v, v ∈ jobs → Dict.get (data cm) (playbook_id v) = None) →
  data (fold_left saved jobs cm) = data cm ++ entries jobs.
Proof.
  revert cm. induction jobs as [|v jobs IH]; intros cm Hnd Hfresh; simpl.
  - by rewrite app_nil_r.
  - apply NoDup_cons in Hnd as [Hv Hnd]. rewrite IH; [|done|].
    + simpl. rewrite setitem_fresh; [|apply Hfresh; left].
      by rewrite <- app_assoc.
    + intros v' Hin. simpl. rewrite get_setitem_ne.
      * apply Hfresh. by right.
      * intros Heq. apply Hv. rewrite Heq.
        change (map ?f ?l) with (f <$> l). by apply list_elem_of_fmap_2.
Qed.

Lemma keys_app d d' : Dict.keys (d ++ d') = Dict.keys d ++ Dict.keys d'.
Proof. unfold Dict.keys. apply map_app. Qed.

Lemma keys_entries jobs : Dict.keys (entries jobs) = map playbook_id jobs.
Proof. unfold Dict.keys, entries. rewrite map_map. done. Qed.

Lemma Forall2_entries jobs (news : list JobState) :
  (∀ v, v ∈ jobs → loads (json v) = Some v) →
  Forall2 (λ kv js, loads kv.2 = Some js) (entries jobs) news → news = jobs.
Proof.
  revert news. induction jobs as [|v jobs IH]; intros news Hrt Hfa.
  - by apply Forall2_nil_inv_l in Hfa.
  - simpl in Hfa. apply Forall2_cons_inv_l in Hfa as (js & news' & Hjs & Hfa & ->).
    simpl in Hjs. rewrite Hrt in Hjs; [|left]. injection Hjs as <-.
    f_equal. apply IH; [|done]. intros. apply Hrt. by right.
Qed.

(** X10.  Listing after saving: in the usual situation, on a document in
    good shape, after a caller has saved job states with pairwise
    different playbook ids that the mapping did not hold, each surviving
    its serialisation, [list] returns the states the document held before
    and the saved states, each of them once and nothing else; in which
    order is the business of the store, and no order is stated. *)
Theorem list_after_saves jobs w cm :
  ready w cm → sound cm →
  NoDup (map playbook_id jobs) →
  (∀ v, v ∈ jobs → Dict.get (data cm) (playbook_id v) = None
                   ∧ loads (json v) = Some v) →
  ∃ (olds : list JobState) (r : list (option JobState)),
    Forall2 (λ kv js, loads kv.2 = Some js) (data cm) olds
    ∧ ((let* _ := save_all jobs in list_scheduled_jobs_states) w).1 = Return r
    ∧ r ≡ₚ map Some (olds ++ jobs).
Proof.
  intros Hr [Hmeta Hwf Hdec] Hnd Hjobs.
  destruct (save_all_ready jobs w cm Hr) as [Hret [Hd' _ Hc' _]].
  pose proof (fold_saved_fresh jobs cm Hnd (λ v Hv, proj1 (Hjobs v Hv))) as Hdata.
  assert (Dict.wf (data cm ++ entries jobs)) as Hwf'.
  { unfold Dict.wf. rewrite keys_app, keys_entries. apply NoDup_app.
    split_and!; [done | | done].
    intros k Hk (v & -> & Hv)%(list_elem_of_fmap_1 playbook_id).
    apply (proj1 (get_None_keys _ _) (proj1 (Hjobs v Hv)) Hk). }
  destruct (decode_entries (data cm ++ entries jobs) (data cm ++ entries jobs))
    as (states & Hmap & Hfa).
  { intros [k s] Hin. split; [by apply elem_get_Some|]. simpl.
    apply elem_of_app in Hin as [Hin|Hin]; [by apply (Hdec k)|].
    apply (list_elem_of_fmap_1 (λ v, (playbook_id v, json v))) in Hin
      as (v & [= -> ->] & Hv).
    rewrite (proj2 (Hjobs v Hv)). by eexists. }
  apply Forall2_app_inv_l in Hfa as (olds & news & Hold & Hnew & ->).
  apply Forall2_entries in Hnew as ->; [|intros v Hv; apply (Hjobs v Hv)].
  exists olds, (map Some (olds ++ jobs)). split_and!; [done | | done].
  unfold bind at 1. destruct (save_all jobs w) as [r w'] eqn:Hs.
  simpl in Hret, Hd', Hc'. subst r.
  unfold list_scheduled_jobs_states, bind.
  rewrite (load_served _ _ (next_fault_calm _ Hc') Hd').
  rewrite (mapM_get_calm (fold_left saved jobs cm));
    [| by apply issue_calm | done |].
  - simpl. by rewrite Hdata, Hmap.
  - intros k (s & Hg & Hin)%keys_in_dict. rewrite Hdata in Hin.
    exists s. split; [done|].
    apply elem_of_app in Hin as [Hin|Hin]; [by apply (Hdec k)|].
    apply (list_elem_of_fmap_1 (λ v, (playbook_id v, json v))) in Hin
      as (v & [= -> ->] & Hv).
    rewrite (proj2 (Hjobs v Hv)). by eexists.
Qed.

(** X11.  The module keeps the document in good shape: in any world that
    holds a document in good shape, whatever failures are scheduled and
    whether the lock is free or not, after [save] of a state whose
    serialisation decodes, and after [delete] of any key, the document is
    still there and in good shape: well-known name, no key twice, every
    value decodable. *)
Theorem operations_keep_document_sound w cm :
  document w = Some cm → sound cm →
  (∀ v, is_Some (loads (json v)) →
        ∃ cm', document (save_scheduled_job_state v w).2 = Some cm' ∧ sound cm')
  ∧ (∀ k, ∃ cm', document (del_scheduled_job_state k w).2 = Some cm' ∧ sound cm').
Proof.
  intros Hd [Hmeta Hwf Hdec]. split.
  - intros v Hv. unfold document.
    destruct (save_objects v w) as [->|(cm0 & Hd0 & _ & ->)]; [by exists cm|].
    rewrite Hd in Hd0. injection Hd0 as <-. rewrite Hmeta.
    exists (saved cm v). split; [apply lookup_insert_eq|].
    split; simpl; [done | by apply wf_setitem |].
    intros k s [Hin|[= -> ->]]%elem_of_setitem; [by apply (Hdec k) | done].
  - intros k. unfold document.
    destruct (del_objects k w) as [->|(cm0 & d & Hd0 & Hdel & _ & ->)]; [by exists cm|].
    rewrite Hd in Hd0. injection Hd0 as <-. rewrite Hmeta.
    eexists. split; [apply lookup_insert_eq|].
    split; simpl; [done | by apply (wf_delitem (data cm) d k) |].
    intros k' s Hin. apply (Hdec k'). by apply (elem_of_delitem (data cm) d k).
Qed.

End Composition.

(** * Properties of the command line *)

Section Retry.
Import Cli.
Implicit Types (sh : Shell) (argv : list string) (fails : list Cli.exn)
  (t : Z) (msg : string).



Lemma runs_app (l l' : list event) : runs (l ++ l') = runs l + runs l'.
Proof. unfold runs. by rewrite filter_app, length_app. Qed.

Lemma attempts_log n argv t msg sh :
  ∃ new, events (attempts n argv t msg sh).2 = events sh ++ new
         ∧ (1 ≤ runs new)%nat ∧ (runs new ≤ S n)%nat
         ∧ Forall (λ e, is_run e = true → e = Run argv) new.
Proof.
  revert sh. induction n as [|n IH]; intros sh.
  - exists [Run argv]. simpl. unfold check_call.
    split_and!; [by destruct (outcomes sh) as [|[?|] ?] | done | done |].
    by repeat constructor.
  - simpl. unfold check_call.
    destruct (outcomes sh) as [|[e|] tl] eqn:Ho; simpl;
      try (exists [Run argv]; split_and!; [done | done | unfold runs; simpl; lia |];
           by repeat constructor).
    destruct (is_Exception e);
      [| exists [Run argv]; split_and!; [done | done | unfold runs; simpl; lia |];
         by repeat constructor].
    unfold sleep. destruct (t <? 0)%Z.
    + exists [Run argv; Echo msg]. simpl.
      split_and!; [by rewrite <- app_assoc | done | unfold runs; simpl; lia |].
      by repeat constructor.
    + match goal with |- context [attempts n argv t msg ?s] =>
        destruct (IH s) as (new & Hev & H1 & H2 & Hfa) end.
      exists (failed_round argv t msg ++ new). split_and!.
      * rewrite Hev. simpl. by rewrite <- !app_assoc.
      * rewrite runs_app. lia.
      * rewrite runs_app. change (runs (failed_round argv t msg)) with 1. lia.
      * apply Forall_app. split; [by repeat constructor | done].
Qed.

(** X13.  [exec_in_robusta_runner] runs the command at least once and at
    most [max 1 tries] times, always with the same command line, [kubectl
    exec] into the runner with [bash -c cmd]; for [tries] of 1 or less,
    zero and negative numbers included, it runs it exactly once and
    neither prints nor sleeps. *)
Theorem exec_attempts_bounded cmd tries t msg sh :
  ∃ new,
    events (exec_in_robusta_runner cmd tries t msg sh).2 = events sh ++ new
    ∧ (1 ≤ runs new)%nat ∧ (Z.of_nat (runs new) ≤ Z.max 1 tries)%Z
    ∧ Forall (λ e, is_run e = true → e = Run (runner_argv cmd)) new
    ∧ ((tries ≤ 1)%Z → new = [Run (runner_argv cmd)]).
Proof.
  unfold exec_in_robusta_runner.
  destruct (attempts_log (Z.to_nat (tries - 1)) (runner_argv cmd) t msg sh)
    as (new & Hev & H1 & H2 & Hfa).
  exists new. split_and!; [done | done | lia | done |].
  intros Hle. replace (Z.to_nat (tries - 1)) with 0 in Hev by lia.
  simpl in Hev. unfold check_call in Hev.
  apply (app_inv_head (events sh)). rewrite <- Hev.
  by destruct (outcomes sh) as [|[?|] ?].
Qed.





End Retry.

Section Polling.
Import Cli.
Context {token : Type} (truthy : token → bool) (str : token → string)
  (address : string).
Implicit Types (id : string) (pre rest : list (reply (token := token)))
  (logged : list event).

(** X18.  [wait_for_slack_api_key] returns [str] of the first truthy
    token: after any rounds that keep the loop going (a response with a
    falsy token, or an [Exception] anywhere in the round), it returns at
    the first response whose token is truthy.  Each falsy token costs a
    request and a sleep of half a second; each exception costs a request
    and a title in the log, and no sleep: the next request follows at
    once. *)
Theorem wait_returns_first_token id pre t rest logged :
  Forall (λ r, keeps_polling truthy r = true) pre → truthy t = true →
  wait_for_slack_api_key truthy str address id (pre ++ Token t :: rest) logged =
    (Some (inl (str t)),
     logged ++ concat (map (polling_round address id) pre)
          ++ [Get (token_url address id)]).
Proof.
  intros Hpre Ht. revert logged. induction Hpre as [|r pre Hr _ IH]; intros logged.
  - simpl. by rewrite Ht.
  - simpl. destruct r as [t'|e|]; simpl in Hr.
    + apply negb_true_iff in Hr. rewrite Hr, IH. by rewrite <- !app_assoc.
    + rewrite IH. simpl. by rewrite <- !app_assoc.
    + done.
Qed.

(** X19.  [wait_for_slack_api_key] has no limit of its own: as long as
    every round ends with a falsy token, or with an [Exception] raised by
    the request, by the decoding of the response or by the lookup of the
    token, it is still polling, however many rounds there have been, and
    none of these exceptions reaches the caller; each is logged with a
    title. *)
Theorem wait_never_gives_up id replies logged :
  Forall (λ r, keeps_polling truthy r = true) replies →
  wait_for_slack_api_key truthy str address id replies logged =
    (None, logged ++ concat (map (polling_round address id) replies)).
Proof.
  intros Hall. revert logged. induction Hall as [|r pre Hr _ IH]; intros logged.
  - simpl. by rewrite app_nil_r.
  - simpl. destruct r as [t'|e|]; simpl in Hr.
    + apply negb_true_iff in Hr. rewrite Hr, IH. by rewrite <- !app_assoc.
    + rewrite IH. simpl. by rewrite <- !app_assoc.
    + done.
Qed.

End Polling.

(** * Properties of the bash enrichments *)

Section Enriching.
Import Enrichment.
Context {Pod Node Data E : Type}.
Context (read_pod : string → string → option Pod + E).
Context (exec : Pod → string → string + E).
Context (read_node : string → option Node + E).
Context (exec_in_debugger_pod : string → string → string → string + E).
Context (parse_pod_params : Data → PodBashParams + E).
Context (parse_node_params : Data → NodeBashParams + E).

(** X20.  The enrichments never return an empty list.  When the pod is
    not found, [pod_bash_enrichment] returns exactly one block, the
    message that names the pod and its namespace; when it is found and the
    command returns, exactly two, the header that quotes the command and
    then the output; it returns in these two cases only, the exceptions of
    the read and of the command being raised.  The same holds of
    [node_bash_enrichment], whose command goes to the debugger pod
    ["node-bash-pod"] of the node. *)
Theorem bash_enrichment_never_empty name ns cmd :
  ((read_pod name ns = inl None →
      pod_bash_enrichment read_pod exec name ns cmd =
        inl [MarkdownBlock
               (String.append "Pod "
                  (String.append ns (String.append "/" (String.append name " not found"))))])
   ∧ (∀ pod out, read_pod name ns = inl (Some pod) → exec pod cmd = inl out →
        pod_bash_enrichment read_pod exec name ns cmd =
          inl [MarkdownBlock
                 (String.append "Command results for *" (String.append cmd ":*"));
               MarkdownBlock out])
   ∧ (∀ blocks, pod_bash_enrichment read_pod exec name ns cmd = inl blocks →
        blocks ≠ []
        ∧ (read_pod name ns = inl None
           ∨ ∃ pod out, read_pod name ns = inl (Some pod) ∧ exec pod cmd = inl out)))
  ∧ ((read_node name = inl None →
        node_bash_enrichment read_node exec_in_debugger_pod name cmd =
          inl [MarkdownBlock
                 (String.append "Node " (String.append name " not found"))])
     ∧ (∀ node out, read_node name = inl (Some node) →
          exec_in_debugger_pod "node-bash-pod" name cmd = inl out →
          node_bash_enrichment read_node exec_in_debugger_pod name cmd =
            inl [MarkdownBlock
                   (String.append "Command results for *" (String.append cmd ":*"));
                 MarkdownBlock out])
     ∧ (∀ blocks,
          node_bash_enrichment read_node exec_in_debugger_pod name cmd = inl blocks →
          blocks ≠ []
          ∧ (read_node name = inl None
             ∨ ∃ node out, read_node name = inl (Some node)
                           ∧ exec_in_debugger_pod "node-bash-pod" name cmd = inl out))).
Proof.
  split; split_and!.
  - intros Hr. unfold pod_bash_enrichment. by rewrite Hr.
  - intros pod out Hr He. unfold pod_bash_enrichment. by rewrite Hr, He.
  - intros blocks. unfold pod_bash_enrichment.
    destruct (read_pod name ns) as [[pod|]|e]; [| |done].
    + destruct (exec pod cmd) as [out|e] eqn:Hex; [|done].
      intros [= <-]. split; [done|]. right. by exists pod, out.
    + intros [= <-]. split; [done|]. by left.
  - intros Hr. unfold node_bash_enrichment. by rewrite Hr.
  - intros node out Hr He. unfold node_bash_enrichment. by rewrite Hr, He.
  - intros blocks. unfold node_bash_enrichment.
    destruct (read_node name) as [[node|]|e]; [| |done].
    + destruct (exec_in_debugger_pod _ name cmd) as [out|e] eqn:Hex; [|done].
      intros [= <-]. split; [done|]. right. by exists node, out.
    + intros [= <-]. split; [done|]. by left.
Qed.

(** X21.  The playbooks always report: when the parameters are valid and
    the enrichment returns, [show_pod_bash_enrichment] and
    [show_node_bash_enrichment] pass the event to [send_to_slack] exactly
    once, with the blocks of the enrichment appended to the blocks the
    event had, the channel of the parameters and the title naming the pod
    or node; the test [if blocks] never fails. *)
Theorem show_bash_enrichment_always_reports (event : TriggerEvent Data) :
  (∀ params blocks,
     parse_pod_params (data event) = inl params →
     pod_bash_enrichment read_pod exec (pod_name params) (pod_namespace params)
       (pod_bash_command params) = inl blocks →
     show_pod_bash_enrichment read_pod exec parse_pod_params event =
       let event' :=
         {| data := data event;
            report_blocks := report_blocks event ++ blocks;
            slack_channel := pod_slack_channel params;
            report_title := String.append "Pod bash command - " (pod_name params) |} in
       inl (event', [event']))
  ∧ (∀ params blocks,
       parse_node_params (data event) = inl params →
       node_bash_enrichment read_node exec_in_debugger_pod (node_name params)
         (node_bash_command params) = inl blocks →
       show_node_bash_enrichment read_node exec_in_debugger_pod parse_node_params event =
         let event' :=
           {| data := data event;
              report_blocks := report_blocks event ++ blocks;
              slack_channel := node_slack_channel params;
              report_title :=
                String.append "Node bash command - " (node_name params) |} in
         inl (event', [event'])).
Proof.
  split; intros params blocks Hp Hb.
  - unfold show_pod_bash_enrichment. rewrite Hp, Hb.
    destruct blocks as [|b blocks]; [|done].
    unfold pod_bash_enrichment in Hb.
    destruct (read_pod _ _) as [[pod|]|e]; [| done..].
    by destruct (exec pod _).
  - unfold show_node_bash_enrichment. rewrite Hp, Hb.
    destruct blocks as [|b blocks]; [|done].
    unfold node_bash_enrichment in Hb.
    destruct (read_node _) as [[node|]|e]; [| done..].
    by destruct (exec_in_debugger_pod _ _ _).
Qed.

End Enriching.

(** * The further properties on explicit inputs *)

(** A [save] that cannot read the document gives the lock back. *)
Lemma lock_free_afterwards_witness :
  let w := {| objects := ∅; faults := [Some (ApiException "Forbidden")];
              calls := []; mutex := false |} in
  mutex (save_scheduled_job_state (Sample.mk "job-1" 0) w).2 = false.
Proof.
  intros w.
  refine (proj1 (proj2 (lock_free_afterwards (JobState := Sample.state) w _)) _).
  reflexivity.
Defined.

(** A [save] while the lock is held. *)
Lemma writers_wait_for_lock_witness :
  let w := {| objects := ∅; faults := []; calls := []; mutex := true |} in
  save_scheduled_job_state (Sample.mk "job-1" 0) w = (Blocked, w).
Proof.
  intros w.
  refine (proj1 (writers_wait_for_lock (JobState := Sample.state) w _) _).
  reflexivity.
Defined.

(** A [get] while the lock is held. *)
Lemma readers_only_read_witness :
  let w := {| objects := ∅; faults := []; calls := []; mutex := true |} in
  (get_scheduled_job_state (JobState := Sample.state) "job-1" w).1 ≠ Blocked
  ∧ (get_scheduled_job_state (JobState := Sample.state) "job-1" w).2 = issue fetch w.
Proof.
  intros w. exact (proj1 (readers_only_read (JobState := Sample.state) w) "job-1").
Defined.

(** The four operations on a cluster without the document. *)
Lemma missing_document_raises_witness :
  list_scheduled_jobs_states (JobState := Sample.state) Sample.bare_world
  = (Raise (ApiException "Not Found"), issue fetch Sample.bare_world).
Proof.
  refine (proj1 (proj2 (missing_document_raises (JobState := Sample.state)
                          Sample.bare_world _ _))).
  - reflexivity.
  - vm_compute; reflexivity.
Defined.

(** A [save] on a cluster without the document writes nothing. *)
Lemma failure_writes_nothing_witness :
  objects (save_scheduled_job_state (Sample.mk "job-1" 0) Sample.bare_world).2
  = objects Sample.bare_world.
Proof.
  refine (proj1 (proj2 (failure_writes_nothing (JobState := Sample.state)
                          Sample.bare_world)) (Sample.mk "job-1" 0) _).
  vm_compute. intros [=].
Defined.

Lemma save_twice_is_save_once_witness :
  let v := Sample.mk "job-1" 3 in
  let w := Sample.world_with [("job-1", "job-1#")] in
  objects (save_scheduled_job_state v (save_scheduled_job_state v w).2).2
  = objects (save_scheduled_job_state v w).2.
Proof.
  intros v w.
  refine (save_twice_is_save_once v w
            {| metadata := well_known; data := [("job-1", "job-1#")] |} _).
  split; vm_compute; reflexivity.
Defined.

Lemma delete_undoes_save_witness :
  let v := Sample.mk "job-2" 1 in
  let w := Sample.world_with [("job-1", "job-1#")] in
  ((let* _ := save_scheduled_job_state v in
    del_scheduled_job_state (playbook_id v)) w).1 = Return tt
  ∧ objects ((let* _ := save_scheduled_job_state v in
              del_scheduled_job_state (playbook_id v)) w).2 = objects w.
Proof.
  intros v w.
  refine (delete_undoes_save v w
            {| metadata := well_known; data := [("job-1", "job-1#")] |} _ _).
  - split; vm_compute; reflexivity.
  - vm_compute; reflexivity.
Defined.

Lemma saves_commute_for_get_witness :
  let a := Sample.mk "job-1" 1 in
  let b := Sample.mk "job-2" 2 in
  let w := Sample.world_with [] in
  ((let* _ := save_scheduled_job_state a in
    let* _ := save_scheduled_job_state b in
    get_scheduled_job_state "job-1") w).1
  = ((let* _ := save_scheduled_job_state b in
      let* _ := save_scheduled_job_state a in
      get_scheduled_job_state "job-1") w).1.
Proof.
  intros a b w.
  refine (saves_commute_for_get a b "job-1" w {| metadata := well_known; data := [] |} _ _).
  - split; vm_compute; reflexivity.
  - vm_compute. intros [=].
Defined.

(** Saving two jobs into an empty document, then listing. *)
Lemma list_after_saves_witness :
  let jobs := [Sample.mk "job-1" 1; Sample.mk "job-2" 0] in
  ∃ (olds : list Sample.state) (r : list (option Sample.state)),
    Forall2 (λ (kv : string * string) js, loads kv.2 = Some js) [] olds
    ∧ ((let* _ := save_all jobs in list_scheduled_jobs_states) (Sample.world_with [])).1
      = Return r
    ∧ r ≡ₚ map Some (olds ++ jobs).
Proof.
  intros jobs.
  refine (list_after_saves jobs (Sample.world_with [])
            {| metadata := well_known; data := [] |} _ _ _ _).
  - split; vm_compute; reflexivity.
  - split; [reflexivity | apply NoDup_nil_2 |].
    intros k s Hin. by apply elem_of_nil in Hin.
  - apply (bool_decide_unpack _). vm_compute. exact I.
  - intros v Hin.
    repeat (apply elem_of_cons in Hin as [->|Hin]; [split; vm_compute; reflexivity|]).
    by apply elem_of_nil in Hin.
Defined.

Lemma operations_keep_document_sound_witness :
  let d := [("job-1", "job-1#"); ("job-2", "job-2#+")] in
  ∃ cm', document (del_scheduled_job_state "job-1"
                     (Sample.world_with d)).2 = Some cm'
         ∧ sound (JobState := Sample.state) cm'.
Proof.
  intros d.
  refine (proj2 (operations_keep_document_sound (JobState := Sample.state)
                   (Sample.world_with d) {| metadata := well_known; data := d |} _ _)
            "job-1").
  - vm_compute; reflexivity.
  - split; [reflexivity | apply (bool_decide_unpack _); vm_compute; exact I |].
    intros k s Hin.
    repeat (apply elem_of_cons in Hin as [[= -> ->]|Hin]; [vm_compute; eauto|]).
    by apply elem_of_nil in Hin.
Defined.





(** The playground command: one try. *)
Lemma exec_attempts_bounded_witness :
  let sh := {| Cli.outcomes := [Some (Cli.OSError "no kubectl")]; Cli.events := [] |} in
  ∃ new,
    Cli.events (Cli.exec_in_robusta_runner "socat" 1 10 "error running cmd" sh).2
    = Cli.events sh ++ new
    ∧ new = [Cli.Run (Cli.runner_argv "socat")].
Proof.
  intros sh.
  destruct (exec_attempts_bounded "socat" 1 10 "error running cmd" sh)
    as (new & Hev & _ & _ & _ & Hone).
  exists new. split; [exact Hev|]. apply Hone. lia.
Defined.

(** Polling with strings as tokens, the empty string being falsy: an
    error, an empty token, then the token. *)
Lemma wait_returns_first_token_witness :
  let truthy := λ s : string, negb (String.eqb s "") in
  Cli.wait_for_slack_api_key truthy id "https://slack" "42"
    ([Cli.Broken "timeout"; Cli.Token ""] ++ [Cli.Token "xoxb"; Cli.Token "late"]) []
  = (Some (inl "xoxb"),
     [] ++ concat (map (Cli.polling_round "https://slack" "42")
                     [Cli.Broken "timeout"; Cli.Token ""])
        ++ [Cli.Get (Cli.token_url "https://slack" "42")]).
Proof.
  intros truthy.
  refine (wait_returns_first_token truthy id "https://slack" "42"
            [Cli.Broken "timeout"; Cli.Token ""] "xoxb" [Cli.Token "late"] [] _ _).
  - by repeat constructor.
  - reflexivity.
Defined.

Lemma wait_never_gives_up_witness :
  let truthy := λ s : string, negb (String.eqb s "") in
  Cli.wait_for_slack_api_key truthy id "https://slack" "42"
    [Cli.Broken "timeout"; Cli.Token ""; Cli.Broken "refused"] []
  = (None,
     [] ++ concat (map (Cli.polling_round "https://slack" "42")
                     [Cli.Broken "timeout"; Cli.Token ""; Cli.Broken "refused"])).
Proof.
  intros truthy.
  refine (wait_never_gives_up truthy id "https://slack" "42"
            [Cli.Broken "timeout"; Cli.Token ""; Cli.Broken "refused"] [] _).
  by repeat constructor.
Defined.

(** A cluster with one pod, ["web"], whose commands print ["ok"]: the
    enrichment of a pod that is not there, and of the one that is. *)
Lemma bash_enrichment_never_empty_witness :
  let read_pod := λ name ns : string,
    if String.eqb name "web" then inl (Some name) else inl None : option string + string in
  let exec := λ (pod cmd : string), inl "ok" : string + string in
  Enrichment.pod_bash_enrichment read_pod exec "db" "default" "ls"
    = inl [Enrichment.MarkdownBlock
             (String.append "Pod "
                (String.append "default"
                   (String.append "/" (String.append "db" " not found"))))]
  ∧ Enrichment.pod_bash_enrichment read_pod exec "web" "default" "ls"
    = inl [Enrichment.MarkdownBlock
             (String.append "Command results for *" (String.append "ls" ":*"));
           Enrichment.MarkdownBlock "ok"].
Proof.
  intros read_pod exec. split.
  - refine (proj1 (proj1 (bash_enrichment_never_empty read_pod exec
                            (λ _ : string, inl None : option string + string)
                            (λ _ _ _, inl "ok") "db" "default" "ls")) _).
    exact eq_refl.
  - refine (proj1 (proj2 (proj1 (bash_enrichment_never_empty read_pod exec
                                   (λ _ : string, inl None : option string + string)
                                   (λ _ _ _, inl "ok") "web" "default" "ls")))
              "web" "ok" _ _); exact eq_refl.
Defined.

Lemma show_bash_enrichment_always_reports_witness :
  let read_pod := λ name ns : string,
    if String.eqb name "web" then inl (Some name) else inl None : option string + string in
  let exec := λ (pod cmd : string), inl "ok" : string + string in
  let parse := λ d : string,
    inl (Enrichment.mkPodParams d "default" "#ops" "ls")
      : Enrichment.PodBashParams + string in
  let event := Enrichment.mkEvent "web" [] "" "" in
  Enrichment.show_pod_bash_enrichment read_pod exec parse event =
    let event' :=
      Enrichment.mkEvent "web"
        ([] ++ [Enrichment.MarkdownBlock "Command results for *ls:*";
                Enrichment.MarkdownBlock "ok"])
        "#ops" (String.append "Pod bash command - " "web") in
    inl (event', [event']).
Proof.
  intros read_pod exec parse event.
  refine (proj1 (show_bash_enrichment_always_reports read_pod exec
                   (λ _ : string, inl None : option string + string)
                   (λ _ _ _, inl "ok")
                   parse (λ _, inr "unused") event)
            (Enrichment.mkPodParams "web" "default" "#ops" "ls") _ _ _).
  - exact eq_refl.
  - exact eq_refl.
Defined.
